(** * Staging relay for Safe multisig transactions: a shallow embedding

    The program is the express server of [src/index.ts], the file the
    container runs.  Its only state is [txdb], a [Map] from a safe key to a
    [Map] from transaction digest to the staged transaction.  The POST
    handler is embedded as a function from the store to a response and a
    store, one request at a time; the chain (the Safe contract behind an RPC
    provider) and the [ethers] primitives that cannot be computed here
    (keccak, ECDSA recovery, address checksums) are fields of a [World]
    record the handler is given at every call.  The [providers] map with
    its start-up loop and [getProvider], and the handlers of the older copy
    [unnamed/part_000], which keep an array per safe, are embedded after
    the handlers of [src/index.ts]. *)

From Stdlib Require Import ZArith List Bool Lia Ascii String Sorted.
From stdpp Require Import base option list strings gmap pretty.

Local Open Scope string_scope.
Local Open Scope list_scope.
Local Open Scope Z_scope.

(** ** JavaScript strings, bytes and numbers

    A string is a sequence of code units below 256, the Latin-1 range of
    UTF-16: an [ascii] of Rocq is one code unit.  Strings with other code
    units are outside this embedding. *)

Module Js.

(** [String.prototype.toLowerCase] on one code unit: A to Z, and the
    capital letters of U+00C0 to U+00DE but for the multiplication sign
    U+00D7, are 32 below their lower-case form. *)
Definition lower_char (c : ascii) : ascii :=
  let n := N_of_ascii c in
  if (((65 <=? n) && (n <=? 90))
      || ((192 <=? n) && (n <=? 222) && negb (n =? 215)))%N
  then ascii_of_N (n + 32) else c.

Fixpoint toLowerCase (s : string) : string :=
  match s with
  | EmptyString => EmptyString
  | String c r => String (lower_char c) (toLowerCase r)
  end.

(** Value of a digit character in base 36 (as [parseInt] reads them). *)
Definition digit36 (c : ascii) : option Z :=
  let n := Z.of_N (N_of_ascii c) in
  if (48 <=? n) && (n <=? 57) then Some (n - 48)
  else if (97 <=? n) && (n <=? 122) then Some (n - 87)
  else if (65 <=? n) && (n <=? 90) then Some (n - 55)
  else None.

Definition digit_value (radix : Z) (c : ascii) : option Z :=
  match digit36 c with
  | Some d => if d <? radix then Some d else None
  | None => None
  end.

(** StrWhiteSpaceChar, the white space [parseInt] skips, below 256: TAB,
    LF, VT, FF, CR, the space and the no-break space U+00A0. *)
Definition is_space (c : ascii) : bool :=
  let n := N_of_ascii c in
  ((n =? 32) || ((9 <=? n) && (n <=? 13)) || (n =? 160))%N.

Fixpoint trim_start (s : string) : string :=
  match s with
  | String c r => if is_space c then trim_start r else s
  | EmptyString => EmptyString
  end.

(** The longest prefix of digits; [acc] is [None] until a digit is read. *)
Fixpoint parse_digits (radix : Z) (s : string) (acc : option Z) : option Z :=
  match s with
  | EmptyString => acc
  | String c r =>
      match digit_value radix c with
      | Some d => parse_digits radix r (Some (radix * default 0 acc + d))
      | None => acc
      end
  end.

(** [Number.parseInt(s)] without a radix argument; [None] is NaN.  The
    result is the exact integer: above 2^53 the double JavaScript returns
    is rounded, and [isSafeInteger] below rejects both alike. *)
Definition parseInt (s : string) : option Z :=
  let s := trim_start s in
  let '(sign, s) :=
    match s with
    | String "-" r => (-1, r)
    | String "+" r => (1, r)
    | _ => (1, s)
    end in
  let '(radix, s) :=
    match s with
    | String "0" (String "x" r) => (16, r)
    | String "0" (String "X" r) => (16, r)
    | _ => (10, s)
    end in
  match parse_digits radix s None with
  | Some n => Some (sign * n)
  | None => None
  end.

Definition MAX_SAFE_INTEGER : Z := 2 ^ 53 - 1.

Definition isSafeInteger (n : Z) : bool :=
  (- MAX_SAFE_INTEGER <=? n) && (n <=? MAX_SAFE_INTEGER).

(** Pairs of hex digits, as bytes in [0, 256). *)
Fixpoint hex_pairs (s : string) : option (list Z) :=
  match s with
  | EmptyString => Some []
  | String a (String b r) =>
      match digit_value 16 a, digit_value 16 b, hex_pairs r with
      | Some h, Some l, Some t => Some ((16 * h + l) :: t)
      | _, _, _ => None
      end
  | String _ EmptyString => None
  end.

(** [ethers.getBytes] on a string: it must be 0x followed by an even number
    of hex digits, all matched without regard to case, else the call throws
    ([None]). *)
Definition getBytes (s : string) : option (list Z) :=
  match s with
  | String "0" (String "x" r) => hex_pairs r
  | String "0" (String "X" r) => hex_pairs r
  | _ => None
  end.

Definition hex_char (d : Z) : ascii :=
  ascii_of_N (Z.to_N (if d <? 10 then d + 48 else d + 87)).

Fixpoint hex_of_bytes (bs : list Z) : string :=
  match bs with
  | [] => EmptyString
  | b :: r => String (hex_char (b / 16)) (String (hex_char (b mod 16)) (hex_of_bytes r))
  end.

(** [ethers.hexlify]: lower-case hex with the 0x prefix. *)
Definition hexlify (bs : list Z) : string := "0x" +:+ hex_of_bytes bs.

(** [ethers.concat]: every item goes through [getBytes]. *)
Definition concat (items : list string) : option string :=
  match mapM getBytes items with
  | Some bss => Some ("0x" +:+ String.concat "" (hex_of_bytes <$> bss))
  | None => None
  end.

End Js.

(** ** lodash *)

Module Lodash.

Section SortBy.
Context {A K : Type} (leb : K → K → bool).

(** [x] was before every element of [l] in the input: it stays before
    the elements whose key is equal (the sort is stable). *)
Fixpoint insert_by (x : K * A) (l : list (K * A)) : list (K * A) :=
  match l with
  | [] => [x]
  | y :: r => if leb x.1 y.1 then x :: y :: r else y :: insert_by x r
  end.

Definition sort_pairs (l : list (K * A)) : list (K * A) :=
  foldr insert_by [] l.

(** [_.sortBy(l, f)]: the keys are computed once per element, the result
    is ascending by key and keeps the input order between equal keys. *)
Definition sortBy (f : A → K) (l : list A) : list A :=
  snd <$> sort_pairs ((λ x, (f x, x)) <$> l).

(** What [insert_by] does to the values when each pair holds the key
    of its value. *)
Fixpoint insert_key (f : A → K) (x : A) (l : list A) : list A :=
  match l with
  | [] => [x]
  | y :: r => if leb (f x) (f y) then x :: y :: r else y :: insert_key f x r
  end.

(** The same with an iteratee that can throw: the first exception
    aborts the whole call. *)
Definition sortBy_throwing (f : A → option K) (l : list A) : option (list A) :=
  match mapM f l with
  | Some ks => Some (snd <$> sort_pairs (zip ks l))
  | None => None
  end.
End SortBy.

(** [compareAscending] between keys of one primitive type, [None] being
    [undefined]: two [undefined] are equal, [undefined] goes last. *)
Definition leb_undefined {K} (leb : K → K → bool) (a b : option K) : bool :=
  match a, b with
  | Some x, Some y => leb x y
  | None, Some _ => false
  | _, None => true
  end.

(** [_.union(a, b)]: the values of [a] then [b], each kept at its first
    occurrence; on strings SameValueZero is string equality. *)
Fixpoint uniq (l : list string) (seen : list string) : list string :=
  match l with
  | [] => []
  | x :: r => if bool_decide (x ∈ seen) then uniq r seen else x :: uniq r (x :: seen)
  end.

Definition union (a b : list string) : list string := uniq (a ++ b) [].

End Lodash.

(** ** Data model *)

Record SafeTransaction := {
  to : string;
  value : string;
  data : string;
  operation : string;
  safeTxGas : string;
  baseGas : string;
  gasPrice : string;
  gasToken : string;
  refundReceiver : string;
  _nonce : Z;
}.

Record StagedTransaction := {
  txn : SafeTransaction;
  sigs : list string;
}.

Global Instance SafeTransaction_eq_dec : EqDecision SafeTransaction.
Proof. solve_decision. Defined.

Global Instance StagedTransaction_eq_dec : EqDecision StagedTransaction.
Proof. solve_decision. Defined.

(** [_.isEqual] on two transactions: deep equality, field by field. *)
Definition isEqual (a b : SafeTransaction) : bool :=
  String.eqb (to a) (to b)
  && String.eqb (value a) (value b)
  && String.eqb (data a) (data b)
  && String.eqb (operation a) (operation b)
  && String.eqb (safeTxGas a) (safeTxGas b)
  && String.eqb (baseGas a) (baseGas b)
  && String.eqb (gasPrice a) (gasPrice b)
  && String.eqb (gasToken a) (gasToken b)
  && String.eqb (refundReceiver a) (refundReceiver b)
  && (_nonce a =? _nonce b).

(** A [StagedTransaction] has no [_nonce] property of its own: reading
    [t._nonce] yields [undefined]. *)
Definition own_nonce (t : StagedTransaction) : option Z := None.

Definition MAX_SIGS : nat := 100.
Definition MAX_TXNS_STAGED : nat := 100.
Definition MAX_TXDATA_SIZE : Z := 1000000.

(** ** The JavaScript [Map] of one safe

    Entries in insertion order, one per key.  The functions below are the
    [Map] methods the handler calls. *)

Module JsMap.

Abbreviation t := (list (string * StagedTransaction)).

Fixpoint get (k : string) (m : t) : option StagedTransaction :=
  match m with
  | [] => None
  | (k', v) :: r => if decide (k' = k) then Some v else get k r
  end.

(** [set] on a present key keeps the entry in its place; a new key goes
    last. *)
Fixpoint set (k : string) (v : StagedTransaction) (m : t) : t :=
  match m with
  | [] => [(k, v)]
  | (k', v') :: r => if decide (k' = k) then (k, v) :: r else (k', v') :: set k v r
  end.

Definition delete (k : string) (m : t) : t :=
  filter (λ e, e.1 ≠ k) m.

Definition size (m : t) : nat := length m.

Definition values (m : t) : list StagedTransaction := snd <$> m.

Definition keys (m : t) : list string := fst <$> m.

End JsMap.

(** The process-wide store: safe key to the [Map] of that safe. *)
Abbreviation TxDb := (gmap string JsMap.t).

(** A variable that holds a [Map] object: the [Map] the store has under a
    safe key, which the variable shares with the store, or a [Map] made by
    [new Map()] that the store does not hold. *)
Inductive MapRef :=
  | Stored (key : string)
  | Fresh (m : JsMap.t).

(** [txdb.get(key) || new Map()]: a [Map] is truthy, empty or not. *)
Definition get_or_new (key : string) (txdb : TxDb) : MapRef :=
  match txdb !! key with
  | Some _ => Stored key
  | None => Fresh []
  end.

(** The entries of the [Map] a variable holds. *)
Definition deref (txdb : TxDb) (r : MapRef) : JsMap.t :=
  match r with
  | Stored key => default [] (txdb !! key)
  | Fresh m => m
  end.

(** A method that changes the [Map] in place: the store sees the change at
    once when it holds the [Map]. *)
Definition update (f : JsMap.t → JsMap.t) (r : MapRef) (txdb : TxDb) : MapRef * TxDb :=
  match r with
  | Stored key => (r, <[key := f (deref txdb r)]> txdb)
  | Fresh m => (Fresh (f m), txdb)
  end.

(** ** The outside world *)

(** The Safe contract reached through a provider.  A call that rejects is
    [None] (or [false] for [checkNSignatures], whose result is not used). *)
Record SafeContract := {
  encodeTransactionData : SafeTransaction → option string;
  nonce : option Z;
  checkNSignatures : string → string → string → nat → bool;
}.

Record World := {
  isAddress : string → bool;
  (** [ethers.getAddress]; [None] when it throws, as it does on a string
      that is no address: the lower-cased form of an ICAP address, which
      [isAddress] accepts in upper case, is one. *)
  getAddress : string → option string;
  keccak256 : string → string;
  (** [recoverAddress(hashMessage(getBytes(digest)), signature)]; [None]
      when it throws. *)
  recoverAddress : string → string → option string;
  (** [getProvider(chainId)] followed by [new ethers.Contract(safeAddress, ...)]. *)
  getProvider : Z → option (string → SafeContract);
}.

Record Request := {
  params_chainId : string;
  params_safeAddress : string;
  body : StagedTransaction;
  (** [JSON.stringify(req.body).length] *)
  body_length : Z;
}.

(** The replies of the POST handler other than the list it sends on
    success, named after the error they stand for. *)
Inductive StageError :=
  | InvalidAccount
  | TxnTooLarge
  | UnsupportedChain
  | TooManyStaged
  | NonceTooLow
  | NonceGap
  | TooManySignatures
  | InvalidSignatureBundle
  | InternalFault.

Global Instance StageError_eq_dec : EqDecision StageError.
Proof. solve_decision. Defined.

Definition http_status (e : StageError) : Z :=
  match e with
  | InternalFault => 500
  | _ => 400
  end.

Definition http_body (e : StageError) : string :=
  match e with
  | InvalidAccount => "invalid chain id or safe address"
  | TxnTooLarge => "txn too large"
  | UnsupportedChain => "chain id not supported"
  | TooManyStaged => "maximum staged signatures for this safe"
  | NonceTooLow => "proposed nonce is lower than current safe nonce"
  | NonceGap => "proposed nonce is higher than current safe nonce with missing staged"
  | TooManySignatures => "maximum signatures reached for transaction"
  | InvalidSignatureBundle => "invalid signature"
  | InternalFault => "unexpected error, please check server logs"
  end.

(** What a handler does with a request: it sends the list, it sends an
    error, or an exception leaves it before it has sent anything. *)
Inductive Response :=
  | Sent (l : list StagedTransaction)
  | Failed (e : StageError)
  | Uncaught.

(** What a call gives: the value it returns, or an exception. *)
Inductive Outcome (A : Type) :=
  | Returns (a : A)
  | Throws.

Arguments Returns {A} a.
Arguments Throws {A}.

(** ** The server *)

Definition getSafeKey (chainId : Z) (safeAddress : string) : string :=
  pretty chainId +:+ "-" +:+ Js.toLowerCase safeAddress.

(** [parseSafeParams(params)]: the object [{}] is [None].  The call of
    [getAddress] is in no [try]. *)
Definition parseSafeParams (W : World) (chainId safeAddress : string)
  : Outcome (option (Z * string)) :=
  match Js.parseInt chainId with
  | None => Returns None
  | Some chainId =>
      if negb (Js.isSafeInteger chainId) || (chainId <? 1) then Returns None
      else if negb (isAddress W safeAddress) then Returns None
      else match getAddress W (Js.toLowerCase safeAddress) with
           | Some safeAddress => Returns (Some (chainId, safeAddress))
           | None => Throws
           end
  end.

(** The handlers test [!chainId || !safeAddress] on the object returned. *)
Definition truthy_params (p : option (Z * string)) : option (Z * string) :=
  match p with
  | Some (chainId, safeAddress) =>
      if (chainId =? 0) || bool_decide (safeAddress = "") then None else p
  | None => None
  end.

(** The version byte fix of the sort iteratee: a last byte above 30 loses 4. *)
Definition adjust_version (signatureBytes : list Z) : list Z :=
  match last signatureBytes with
  | Some v =>
      if 30 <? v then <[pred (length signatureBytes) := v - 4]> signatureBytes
      else signatureBytes
  | None => signatureBytes
  end.

(** The iteratee the signatures are sorted by: the lower-cased address
    recovered from the signature; [None] when [getBytes] or the recovery
    throws. *)
Definition signerKey (W : World) (digest signature : string) : option string :=
  match Js.getBytes signature with
  | None => None
  | Some signatureBytes =>
      match recoverAddress W digest (Js.hexlify (adjust_version signatureBytes)) with
      | Some address => Some (Js.toLowerCase address)
      | None => None
      end
  end.

(** The merge of the incoming signatures with the staged ones. *)
Definition mergeSigs (W : World) (digest : string) (incoming existing : list string)
  : option (list string) :=
  Lodash.sortBy_throwing String.leb (signerKey W digest) (Lodash.union incoming existing).

(** The [if (!existingTx) ... else ...] block.  It reads [txs] and assigns
    [signedTransactionInfo.sigs]; the result is the early reply, or the
    signatures of the request once the block is through. *)
Definition acceptance (W : World) (txs : JsMap.t) (digest : string) (currentNonce : Z)
    (info : StagedTransaction) : StageError + list string :=
  match JsMap.get digest txs with
  | None =>
      if (MAX_TXNS_STAGED <? JsMap.size txs)%nat then inl TooManyStaged
      else if _nonce (txn info) <? currentNonce then inl NonceTooLow
      else if (currentNonce <? _nonce (txn info))
              && negb (existsb (λ tx, _nonce (txn tx) =? _nonce (txn info) - 1)
                               (JsMap.values txs))
      then inl NonceGap
      else inr (sigs info)
  | Some existingTx =>
      match mergeSigs W digest (sigs info) (sigs existingTx) with
      | None => inl InternalFault
      | Some merged =>
          if (MAX_SIGS <? length merged)%nat then inl TooManySignatures
          else inr merged
      end
  end.

(** The test of the clean-up loop on one entry.  The entry written last is
    the request object itself and it is stored under [digest] only, so
    [t !== signedTransactionInfo] holds exactly for the other keys. *)
Definition stale (currentNonce : Z) (digest : string) (info : StagedTransaction)
    (e : string * StagedTransaction) : bool :=
  let '(h, t) := e in
  (_nonce (txn t) <? currentNonce)
  || (bool_decide (h ≠ digest) && isEqual (txn t) (txn info)).

(** The clean-up loop over [txs.entries()], deleting from the [Map] the
    variable [txs] holds. *)
Definition cleanup_loop (currentNonce : Z) (digest : string) (info : StagedTransaction)
    (txs : MapRef) (txdb : TxDb) : MapRef * TxDb :=
  fold_left
    (λ '(txs, txdb) e,
       if stale currentNonce digest info e then update (JsMap.delete e.1) txs txdb
       else (txs, txdb))
    (deref txdb txs) (txs, txdb).

(** [app.post("/:chainId/:safeAddress")].  The handler threads the store;
    the variable [txs] holds the live [Map] of the safe when there is one.
    [parseSafeParams] is called before the [try]: the handler is async, so
    an exception of that call rejects the promise the handler returns, which
    express leaves unhandled, and node ends the process.  The store goes
    with the process; a server that is started again has the empty one. *)
Definition post (W : World) (req : Request) (txdb : TxDb) : Response * TxDb :=
  match parseSafeParams W (params_chainId req) (params_safeAddress req) with
  | Throws => (Uncaught, ∅)
  | Returns params =>
  match truthy_params params with
  | None => (Failed InvalidAccount, txdb)
  | Some (chainId, safeAddress) =>
  if MAX_TXDATA_SIZE <? body_length req then (Failed TxnTooLarge, txdb) else
  let signedTransactionInfo := body req in
  match getProvider W chainId with
  | None => (Failed UnsupportedChain, txdb)
  | Some provider =>
  let safe := provider safeAddress in
  let txs := get_or_new (getSafeKey chainId safeAddress) txdb in
  match encodeTransactionData safe (txn signedTransactionInfo) with
  | None => (Failed InternalFault, txdb)
  | Some hashData =>
  let digest := keccak256 W hashData in
  match nonce safe with
  | None => (Failed InternalFault, txdb)
  | Some currentNonce =>
  match acceptance W (deref txdb txs) digest currentNonce signedTransactionInfo with
  | inl e => (Failed e, txdb)
  | inr sigs' =>
  let signedTransactionInfo := {| txn := txn signedTransactionInfo; sigs := sigs' |} in
  match Js.concat sigs' with
  | None => (Failed InvalidSignatureBundle, txdb)
  | Some signatures =>
  if negb (checkNSignatures safe digest hashData signatures (length sigs'))
  then (Failed InvalidSignatureBundle, txdb)
  else
    let '(txs, txdb) := update (JsMap.set digest signedTransactionInfo) txs txdb in
    let '(txs, txdb) := cleanup_loop currentNonce digest signedTransactionInfo txs txdb in
    let txdb := <[getSafeKey chainId safeAddress := deref txdb txs]> txdb in
    (Sent (Lodash.sortBy (Lodash.leb_undefined Z.leb) own_nonce
             (JsMap.values (deref txdb txs))),
     txdb)
  end end end end end end end.

(** [app.get("/:chainId/:safeAddress")]: staged transactions by nonce.  The
    handler is synchronous: express catches what it throws and answers 500
    by itself, and the process goes on. *)
Definition get (W : World) (chainId safeAddress : string) (txdb : TxDb) : Response :=
  match parseSafeParams W chainId safeAddress with
  | Throws => Uncaught
  | Returns params =>
  match truthy_params params with
  | None => Failed InvalidAccount
  | Some (chainId, safeAddress) =>
      Sent (Lodash.sortBy Z.leb (λ t, _nonce (txn t))
              (JsMap.values (default [] (txdb !! getSafeKey chainId safeAddress))))
  end end.

(** ** A sample world

    Stand-ins for the hash, the recovery and the contract, enough to run the
    handler: a signature is 64 bytes and a version byte, its signer is read
    off its first 20 bytes, and the contract of chain 1 accepts every bundle
    of at least one signature.  An address is 0x and twenty bytes in hex,
    returned as it is (no checksum case), or an ICAP address: XE, two
    digits (not checked) and 30 or 31 digits of base 36, returned in hex. *)

Module Sample.

(** The number an ICAP address writes in base 36. *)
Definition icap_value (s : string) : option Z :=
  match s with
  | String "X" (String "E" (String a (String b r))) =>
      if bool_decide (is_Some (Js.digit_value 10 a))
         && bool_decide (is_Some (Js.digit_value 10 b))
         && bool_decide (String.length r ∈ [30; 31]%nat)
         && forallb (λ c, bool_decide (is_Some (Js.digit36 c))) (list_ascii_of_string r)
      then Js.parse_digits 36 r None
      else None
  | _ => None
  end.

(** The [n] low bytes of [z], the highest first. *)
Fixpoint bytes_of (n : nat) (z : Z) : list Z :=
  match n with
  | O => []
  | S n => bytes_of n (z / 256) ++ [z mod 256]
  end.

Definition sample_getAddress (s : string) : option string :=
  match Js.getBytes s with
  | Some bs => if (length bs =? 20)%nat then Some s else None
  | None =>
      match icap_value s with
      | Some z => Some (Js.hexlify (bytes_of 20 z))
      | None => None
      end
  end.

(** [ethers.isAddress]: [getAddress] does not throw. *)
Definition sample_isAddress (s : string) : bool :=
  match sample_getAddress s with
  | Some _ => true
  | None => false
  end.

Definition sample_recover (digest signature : string) : option string :=
  match Js.getBytes signature with
  | Some bs =>
      if (length bs =? 65)%nat && bool_decide (last bs ∈ [Some 27; Some 28])
      then Some (Js.hexlify (take 20 bs))
      else None
  | None => None
  end.

Definition sample_safe (currentNonce : Z) (safeAddress : string) : SafeContract := {|
  encodeTransactionData t := Some (data t +:+ Js.hex_of_bytes [_nonce t]);
  nonce := Some currentNonce;
  checkNSignatures _ _ _ n := (1 <=? n)%nat;
|}.

Definition world (currentNonce : Z) : World := {|
  isAddress := sample_isAddress;
  getAddress := sample_getAddress;
  keccak256 s := s;
  recoverAddress := sample_recover;
  getProvider chainId := if chainId =? 1 then Some (sample_safe currentNonce) else None;
|}.

Definition safe_address : string := Js.hexlify (replicate 20 171).

(** An ICAP address: [isAddress] accepts it, and [getAddress] throws on its
    lower-cased form, which does not start with XE. *)
Definition icap_address : string := "XE65GB6LDNXYOFTX0NSV3FUWKOWIXAMJK36".

(** A signature of the signer whose address is twenty bytes [a]. *)
Definition sig_of (a v : Z) : string := Js.hexlify (replicate 64 a ++ [v]).

Definition txn_of (payload : string) (n : Z) : SafeTransaction := {|
  to := Js.hexlify (replicate 20 1);
  value := "0";
  data := payload;
  operation := "0";
  safeTxGas := "0";
  baseGas := "0";
  gasPrice := "0";
  gasToken := Js.hexlify (replicate 20 0);
  refundReceiver := Js.hexlify (replicate 20 0);
  _nonce := n;
|}.

Definition request (payload : string) (n : Z) (signatures : list string) : Request := {|
  params_chainId := "1";
  params_safeAddress := safe_address;
  body := {| txn := txn_of payload n; sigs := signatures |};
  body_length := 400 + 135 * Z.of_nat (length signatures);
|}.

(** A reply with each staged transaction shown by its nonce. *)
Definition nonces_of (r : Response) : option StageError + list Z :=
  match r with
  | Sent l => inr ((λ t, _nonce (txn t)) <$> l)
  | Failed e => inl (Some e)
  | Uncaught => inl None
  end.

(** The store after the requests [reqs], each answered in the world it
    comes with, starting from [txdb]. *)
Definition run (reqs : list (World * Request)) (txdb : TxDb) : TxDb :=
  fold_left (λ db wr, (post wr.1 wr.2 db).2) reqs txdb.

Definition key : string := getSafeKey 1 safe_address.

(** Two signers; [sig_a_alt] is the signature [sig_a] with the version
    byte written 31 for 27. *)
Definition sig_a : string := sig_of 17 27.
Definition sig_a_alt : string := sig_of 17 31.
Definition sig_b : string := sig_of 3 28.

(** [n] signatures of [n] signers. *)
Definition many_sigs (n : nat) : list string :=
  (λ i, sig_of (Z.of_nat i) 27) <$> seq 1 n.

(** The safe is at nonce 5 and one transaction of nonce 5 is staged. *)
Definition staged_5 : TxDb := run [(world 5, request "0xaa" 5 [sig_a])] ∅.

(** Nonces 5 and 6 are staged, in this order. *)
Definition staged_5_6 : TxDb :=
  run [(world 5, request "0xaa" 5 [sig_a]); (world 5, request "0xbb" 6 [sig_a])] ∅.

(** The safe is at nonce 0 and the nonces 0 to [n - 1] are staged one
    after the other. *)
Definition filled (n : nat) : TxDb :=
  run ((λ i, (world 0, request "0xaa" (Z.of_nat i) [sig_a])) <$> seq 0 n) ∅.

End Sample.


(** ** Reachable stores

    The store starts empty and only the POST handler writes to it; the
    world may differ from one request to the next.  The requests are
    answered one at a time here, each to its end before the next starts:
    the facts below take from a reachable store only that each of its
    [Map]s is [tidy], which the write of the handler, made without an
    [await] from [txs.set] to [txdb.set], keeps whatever the order the
    requests run in. *)
Inductive reachable : TxDb → Prop :=
  | reachable_init : reachable ∅
  | reachable_post W req txdb : reachable txdb → reachable (post W req txdb).2.

(** What every [Map] of a reachable store satisfies: one entry per digest
    and one per transaction payload. *)
Definition tidy (m : JsMap.t) : Prop :=
  NoDup (JsMap.keys m) ∧ NoDup (txn <$> JsMap.values m).

(** The order the signatures are sorted in. *)
Definition signer_le (W : World) (digest : string) : relation string :=
  λ a b, ∃ ka kb, signerKey W digest a = Some ka ∧ signerKey W digest b = Some kb
                  ∧ String.leb ka kb = true.

(** The values the POST handler has bound when it reaches the
    [if (!existingTx)] block; when it does not get there, the reply, or
    [None] for the exception that left it. *)
Record Staging := {
  st_key : string;
  st_safe : SafeContract;
  st_txs : JsMap.t;
  st_hashData : string;
  st_digest : string;
  st_currentNonce : Z;
}.

Definition staging (W : World) (req : Request) (txdb : TxDb)
  : option StageError + Staging :=
  match parseSafeParams W (params_chainId req) (params_safeAddress req) with
  | Throws => inl None
  | Returns params =>
  match truthy_params params with
  | None => inl (Some InvalidAccount)
  | Some (chainId, safeAddress) =>
      if MAX_TXDATA_SIZE <? body_length req then inl (Some TxnTooLarge) else
      match getProvider W chainId with
      | None => inl (Some UnsupportedChain)
      | Some provider =>
          match encodeTransactionData (provider safeAddress) (txn (body req)),
                nonce (provider safeAddress) with
          | Some hashData, Some currentNonce =>
              inr {| st_key := getSafeKey chainId safeAddress;
                     st_safe := provider safeAddress;
                     st_txs := default [] (txdb !! getSafeKey chainId safeAddress);
                     st_hashData := hashData;
                     st_digest := keccak256 W hashData;
                     st_currentNonce := currentNonce |}
          | _, _ => inl (Some InternalFault)
          end
      end
  end end.

(** The entry the handler writes once the signatures [sigs'] went through. *)
Definition written (req : Request) (sigs' : list string) : StagedTransaction :=
  {| txn := txn (body req); sigs := sigs' |}.

(** What the clean-up loop leaves of a [Map]. *)
Definition cleanup (currentNonce : Z) (digest : string) (info : StagedTransaction)
    (txs : JsMap.t) : JsMap.t :=
  fold_left
    (λ m e, if stale currentNonce digest info e then JsMap.delete e.1 m else m)
    txs txs.

(** The [Map] of the safe after the write and the clean-up. *)
Definition committed (c : Staging) (req : Request) (sigs' : list string) : JsMap.t :=
  cleanup (st_currentNonce c) (st_digest c) (written req sigs')
    (JsMap.set (st_digest c) (written req sigs') (st_txs c)).

(** [c] with another [Map] for the safe. *)
Definition with_txs (c : Staging) (m : JsMap.t) : Staging :=
  {| st_key := st_key c; st_safe := st_safe c; st_txs := m;
     st_hashData := st_hashData c; st_digest := st_digest c;
     st_currentNonce := st_currentNonce c |}.

(** The handler from the [if (!existingTx)] block on. *)
Definition settle (W : World) (c : Staging) (req : Request) (txdb : TxDb) : Response * TxDb :=
  match acceptance W (st_txs c) (st_digest c) (st_currentNonce c) (body req) with
  | inl e => (Failed e, txdb)
  | inr sigs' =>
      match Js.concat sigs' with
      | None => (Failed InvalidSignatureBundle, txdb)
      | Some signatures =>
          if negb (checkNSignatures (st_safe c) (st_digest c) (st_hashData c)
                     signatures (length sigs'))
          then (Failed InvalidSignatureBundle, txdb)
          else (Sent (Lodash.sortBy (Lodash.leb_undefined Z.leb) own_nonce
                        (JsMap.values (committed c req sigs'))),
                <[st_key c := committed c req sigs']> txdb)
      end
  end.

(** ** The providers

    [providers] maps a chain id to the provider the server talks to that
    chain through.  A [JsonRpcProvider] is told apart by the URL it was made
    with.  [chains] is the list of chains of [viem/chains], each with its id
    and the [http] URLs of [rpcUrls.default]. *)

Module Providers.

Record Chain := { id : Z; http : list string }.

Local Abbreviation t := (gmap Z string).

(** [getProvider(chainId)] on a chain id that is a number already, as the
    handlers pass it: [Number(`${chainId}`)] is the number itself.  The
    result is [null] ([None]) or the provider, with [providers] as the call
    leaves it; an empty URL is falsy. *)
Definition getProvider (chains : list Chain) (chainId : Z) (providers : t)
  : option string * t :=
  match providers !! chainId with
  | Some provider => (Some provider, providers)
  | None =>
      match List.find (λ chain, id chain =? chainId) chains with
      | None => (None, providers)
      | Some chain =>
          match http chain with
          | [] => (None, providers)
          | rpcUrl :: _ =>
              if bool_decide (rpcUrl = "") then (None, providers)
              else (Some rpcUrl, <[chainId := rpcUrl]> providers)
          end
      end
  end.

(** [s.split(",")]: the pieces between the commas, one more than there are
    commas. *)
Fixpoint split_comma (s : string) : list string :=
  match s with
  | EmptyString => [EmptyString]
  | String c r =>
      if Ascii.eqb c "," then EmptyString :: split_comma r
      else match split_comma r with
           | piece :: pieces => String c piece :: pieces
           | [] => [String c EmptyString]
           end
  end.

(** [process.env.RPC_URLS?.split(",") || []]; the variable may be unset. *)
Definition rpc_urls (RPC_URLS : option string) : list string :=
  match RPC_URLS with
  | Some s => split_comma s
  | None => []
  end.

(** One turn of the start-up loop.  [network rpcUrl] is the number
    [Number(`${chainId}`)] of the chain id the node at [rpcUrl] reports, or
    [None] when [getNetwork] does not resolve: [start] then never gets to
    [app.listen]. *)
Definition register (network : string → option Z) (providers : option t) (rpcUrl : string)
  : option t :=
  match providers with
  | None => None
  | Some providers =>
      match network rpcUrl with
      | Some chainId => Some (<[chainId := rpcUrl]> providers)
      | None => None
      end
  end.

(** [providers] when the server starts to listen. *)
Definition startup (network : string → option Z) (RPC_URLS : option string) : option t :=
  fold_left (register network) (rpc_urls RPC_URLS) (Some ∅).


End Providers.

(** ** The handlers before the digest-keyed store

    [unnamed/part_000] is the server with the store it had first: an array
    of staged transactions per safe, no merge of signatures and none of the
    three limits.  It shares [parseSafeParams], [getSafeKey] and the world
    with the server above. *)

Module Legacy.

Local Abbreviation TxDb := (gmap string (list StagedTransaction)).

(** [JSON.stringify] at the two types the handler calls it at. *)
Record Json := {
  stringify_txn : SafeTransaction → string;
  stringify_info : StagedTransaction → string;
}.

Inductive StageError :=
  | InvalidAccount
  | UnsupportedChain
  | NonceTooLow
  | NonceGap
  | SigsCountNotGreater
  | InvalidSignatureBundle
  | InternalFault.

Definition http_status (e : StageError) : Z :=
  match e with
  | InternalFault => 500
  | _ => 400
  end.

Definition http_body (e : StageError) : string :=
  match e with
  | InvalidAccount => "invalid chain id or safe address"
  | UnsupportedChain => "chain id not supported"
  | NonceTooLow => "proposed nonce is lower than current safe nonce"
  | NonceGap => "proposed nonce is higher than current safe nonce with missing staged"
  | SigsCountNotGreater => "new sigs count must be greater than old sigs count"
  | InvalidSignatureBundle => "invalid signature"
  | InternalFault => "unexpected error, please check server logs"
  end.

Inductive Response :=
  | Sent (l : list StagedTransaction)
  | Failed (e : StageError)
  | Uncaught.

(** The [if (!existingTx) ... else ...] block: the early reply, if any. *)
Definition acceptance (J : Json) (txs : list StagedTransaction) (currentNonce : Z)
    (info : StagedTransaction) : option StageError :=
  match List.find (λ tx, String.eqb (stringify_txn J (txn tx)) (stringify_info J info)) txs with
  | None =>
      if _nonce (txn info) <? currentNonce then Some NonceTooLow
      else if (currentNonce <? _nonce (txn info))
              && negb (existsb (λ tx, _nonce (txn tx) =? _nonce (txn info) - 1) txs)
      then Some NonceGap
      else None
  | Some existingTx =>
      if (length (sigs info) <=? length (sigs existingTx))%nat then Some SigsCountNotGreater
      else None
  end.

(** The test of the filter on an entry that was staged before: it is not
    the request object, so it stays when its nonce is not below the current
    one and its transaction is not the one of the request. *)
Definition kept (currentNonce : Z) (info t : StagedTransaction) : bool :=
  (currentNonce <=? _nonce (txn t)) && negb (isEqual (txn t) (txn info)).

(** [txs.filter(...)] once the request was pushed: the request object
    itself, the last element, stays when its nonce is not below the current
    one. *)
Definition cleanup (currentNonce : Z) (info : StagedTransaction)
    (txs : list StagedTransaction) : list StagedTransaction :=
  filter (λ t, kept currentNonce info t = true) txs
  ++ (if currentNonce <=? _nonce (txn info) then [info] else []).

(** [app.post("/:chainId/:safeAddress")]; [parseSafeParams] is called
    before the [try] here too, and its exception ends the process. *)
Definition post (W : World) (J : Json) (req : Request) (txdb : TxDb) : Response * TxDb :=
  match parseSafeParams W (params_chainId req) (params_safeAddress req) with
  | Throws => (Uncaught, ∅)
  | Returns params =>
  match truthy_params params with
  | None => (Failed InvalidAccount, txdb)
  | Some (chainId, safeAddress) =>
  let signedTransactionInfo := body req in
  match getProvider W chainId with
  | None => (Failed UnsupportedChain, txdb)
  | Some provider =>
  let safe := provider safeAddress in
  let txs := default [] (txdb !! getSafeKey chainId safeAddress) in
  match nonce safe with
  | None => (Failed InternalFault, txdb)
  | Some currentNonce =>
  match acceptance J txs currentNonce signedTransactionInfo with
  | Some e => (Failed e, txdb)
  | None =>
  match encodeTransactionData safe (txn signedTransactionInfo) with
  | None => (Failed InternalFault, txdb)
  | Some hashData =>
  match Js.concat (sigs signedTransactionInfo) with
  | None => (Failed InvalidSignatureBundle, txdb)
  | Some signatures =>
  if negb (checkNSignatures safe (keccak256 W hashData) hashData signatures
             (length (sigs signedTransactionInfo)))
  then (Failed InvalidSignatureBundle, txdb)
  else
    (Sent (txs ++ [signedTransactionInfo]),
     <[getSafeKey chainId safeAddress := cleanup currentNonce signedTransactionInfo txs]> txdb)
  end end end end end end end.

(** [app.get("/:chainId/:safeAddress")]: the array as it is stored. *)
Definition get (W : World) (chainId safeAddress : string) (txdb : TxDb) : Response :=
  match parseSafeParams W chainId safeAddress with
  | Throws => Uncaught
  | Returns params =>
  match truthy_params params with
  | None => Failed InvalidAccount
  | Some (chainId, safeAddress) => Sent (default [] (txdb !! getSafeKey chainId safeAddress))
  end end.

End Legacy.

(** A stand-in for [JSON.stringify] to run the older handler in the sample
    world, and the store with one transaction of nonce 5 staged. *)
Module LegacySample.

Definition json : Legacy.Json := {|
  Legacy.stringify_txn t := "{data:" +:+ data t +:+ ",_nonce:" +:+ pretty (_nonce t) +:+ "}";
  Legacy.stringify_info i :=
    "{txn:{data:" +:+ data (txn i) +:+ ",_nonce:" +:+ pretty (_nonce (txn i)) +:+ "},sigs:"
    +:+ String.concat "," (sigs i) +:+ "}";
|}.

Definition staged_5 : gmap string (list StagedTransaction) :=
  (Legacy.post (Sample.world 5) json (Sample.request "0xaa" 5 [Sample.sig_a]) ∅).2.

End LegacySample.

(** * Facts *)

(** ** The sort *)

Section SortFacts.
Context {A K : Type} (leb : K → K → bool) (f : A → K).
Implicit Types (l : list A) (x : A) (P : list (K * A)).

Local Abbreviation decorated := (λ p : K * A, p.1 = f p.2).
Local Abbreviation R := (λ a b : A, leb (f a) (f b) = true).

Lemma insert_by_decorated x P :
  Forall decorated P → Forall decorated (Lodash.insert_by leb (f x, x) P).
Proof.
  induction 1 as [|y P Hy HP IH]; simpl.
  - by repeat constructor.
  - destruct (leb _ _); repeat constructor; done.
Qed.

Lemma sort_pairs_decorated l :
  Forall decorated (Lodash.sort_pairs leb ((λ x, (f x, x)) <$> l)).
Proof.
  induction l as [|x l IH]; simpl; [constructor|].
  by apply insert_by_decorated.
Qed.

Lemma insert_by_snd x P :
  Forall decorated P →
  snd <$> Lodash.insert_by leb (f x, x) P = Lodash.insert_key leb f x (snd <$> P).
Proof.
  induction 1 as [|[k y] P Hy HP IH]; [done|].
  simpl in Hy; subst k. cbn [Lodash.insert_by Lodash.insert_key fmap list_fmap fst snd].
  destruct (leb _ _); [done|]. rewrite fmap_cons. by rewrite IH.
Qed.

Lemma sortBy_cons x l :
  Lodash.sortBy leb f (x :: l) = Lodash.insert_key leb f x (Lodash.sortBy leb f l).
Proof.
  unfold Lodash.sortBy. rewrite fmap_cons.
  change (Lodash.sort_pairs leb ((f x, x) :: ?P))
    with (Lodash.insert_by leb (f x, x) (Lodash.sort_pairs leb P)).
  apply insert_by_snd, sort_pairs_decorated.
Qed.

Lemma insert_key_perm x l : Lodash.insert_key leb f x l ≡ₚ x :: l.
Proof.
  induction l as [|y l IH]; simpl; [done|].
  destruct (leb _ _); [done|]. rewrite IH. apply Permutation_swap.
Qed.

Lemma sortBy_perm l : Lodash.sortBy leb f l ≡ₚ l.
Proof.
  induction l as [|x l IH]; [done|].
  by rewrite sortBy_cons, insert_key_perm, IH.
Qed.

Lemma elem_of_sortBy x l : x ∈ Lodash.sortBy leb f l ↔ x ∈ l.
Proof. by rewrite sortBy_perm. Qed.

(** A sorted list is left as it is. *)
Lemma sortBy_of_sorted l : Sorted R l → Lodash.sortBy leb f l = l.
Proof.
  induction 1 as [|x l Hl IH Hhd]; [done|].
  rewrite sortBy_cons, IH.
  destruct Hhd as [|y l Hxy]; simpl; [done|]. by rewrite Hxy.
Qed.

(** Keys that are all alike: nothing moves. *)
Lemma sortBy_constant l : (∀ a b, leb (f a) (f b) = true) → Lodash.sortBy leb f l = l.
Proof.
  intros Hc. apply sortBy_of_sorted.
  induction l as [|x l IH]; constructor; [done|].
  destruct l; constructor. apply Hc.
Qed.

Section Total.
Hypothesis leb_total : ∀ a b : K, leb a b = false → leb b a = true.

Lemma insert_key_sorted x l :
  Sorted R l → Sorted R (Lodash.insert_key leb f x l).
Proof.
  induction 1 as [|y l Hl IH Hhd]; simpl.
  - by repeat constructor.
  - destruct (leb (f x) (f y)) eqn:Hxy.
    + repeat constructor; done.
    + constructor; [done|].
      destruct Hhd as [|z l Hyz]; simpl.
      * constructor. by apply leb_total.
      * destruct (leb (f x) (f z)); constructor; [by apply leb_total|done].
Qed.

Lemma sortBy_sorted l : Sorted R (Lodash.sortBy leb f l).
Proof.
  induction l as [|x l IH]; [constructor|].
  rewrite sortBy_cons. by apply insert_key_sorted.
Qed.
End Total.

(** Taking [x] out again after it was inserted. *)
Lemma insert_key_filter `{!EqDecision A} x l :
  x ∉ l → filter (λ y, y ≠ x) (Lodash.insert_key leb f x l) = l.
Proof.
  induction l as [|y l IH]; intros Hx; simpl.
  - rewrite filter_cons. by case_decide.
  - apply not_elem_of_cons in Hx as [Hxy Hx].
    assert (filter (λ y, y ≠ x) l = l) as Hl.
    { clear -Hx. induction l as [|z l IH]; [done|].
      apply not_elem_of_cons in Hx as [? ?].
      rewrite filter_cons. case_decide; [|congruence]. by rewrite IH. }
    destruct (leb _ _).
    + rewrite filter_cons. case_decide; [done|].
      rewrite filter_cons. case_decide; [|congruence]. by rewrite Hl.
    + rewrite filter_cons. case_decide; [|congruence]. by rewrite IH.
Qed.
End SortFacts.

(** The sort with an iteratee that throws on no element is the plain sort. *)
Lemma sortBy_throwing_Some {A K} (leb : K → K → bool) (g : A → option K) (d : K) l ks :
  mapM g l = Some ks →
  Lodash.sortBy_throwing leb g l = Some (Lodash.sortBy leb (λ x, default d (g x)) l).
Proof.
  intros Hks. unfold Lodash.sortBy_throwing, Lodash.sortBy. rewrite Hks.
  do 3 f_equal. apply mapM_Some in Hks.
  induction Hks as [|x k l ks Hx _ IH]; simpl; [done|]. by rewrite Hx, IH.
Qed.

Lemma sortBy_throwing_None {A K} (leb : K → K → bool) (g : A → option K) l x :
  x ∈ l → g x = None → Lodash.sortBy_throwing leb g l = None.
Proof.
  intros Hx Hg. unfold Lodash.sortBy_throwing.
  destruct (mapM g l) as [ks|] eqn:Hks; [|done].
  assert (is_Some (mapM g l)) as Hs by eauto.
  apply mapM_is_Some, Forall_forall with (x := x) in Hs; [|done].
  simpl in Hs. rewrite Hg in Hs. by destruct Hs.
Qed.

(** ** Filters *)

Lemma filter_ext_elem {A} (P1 P2 : A → Prop)
    `{!∀ x, Decision (P1 x), !∀ x, Decision (P2 x)} (l : list A) :
  (∀ x, x ∈ l → P1 x ↔ P2 x) → filter P1 l = filter P2 l.
Proof.
  induction l as [|a l IH]; intros HP; [done|].
  rewrite !filter_cons.
  assert (P1 a ↔ P2 a) by (apply HP; by left).
  rewrite IH by (intros x Hx; apply HP; by right).
  repeat case_decide; tauto.
Qed.

Lemma filter_all {A} (P : A → Prop) `{!∀ x, Decision (P x)} (l : list A) :
  (∀ x, x ∈ l → P x) → filter P l = l.
Proof.
  induction l as [|a l IH]; intros HP; [done|].
  rewrite filter_cons, decide_True by (apply HP; by left).
  by rewrite IH by (intros x Hx; apply HP; by right).
Qed.

(** ** The union *)

Lemma elem_of_uniq x l seen : x ∈ Lodash.uniq l seen ↔ x ∈ l ∧ x ∉ seen.
Proof.
  revert seen. induction l as [|y l IH]; intros seen; simpl.
  - split; [by inversion 1|]. intros [H _]; inversion H.
  - case_bool_decide as Hy.
    + rewrite IH, elem_of_cons. split; [tauto|].
      intros [[->|Hx] Hs]; [done|tauto].
    + rewrite !elem_of_cons, IH, not_elem_of_cons.
      destruct (decide (x = y)) as [->|Hxy]; tauto.
Qed.

Lemma NoDup_uniq l seen : NoDup (Lodash.uniq l seen).
Proof.
  revert seen. induction l as [|y l IH]; intros seen; simpl; [constructor|].
  case_bool_decide; [done|]. apply NoDup_cons. split; [|done].
  rewrite elem_of_uniq, not_elem_of_cons. tauto.
Qed.

Lemma uniq_NoDup l seen :
  NoDup l → Lodash.uniq l seen = filter (λ x, x ∉ seen) l.
Proof.
  intros Hl. revert seen. induction Hl as [|y l Hy Hl IH]; intros seen; simpl; [done|].
  rewrite filter_cons. case_bool_decide; case_decide; try done.
  rewrite IH. f_equal. apply filter_ext_elem.
  intros x Hx. rewrite not_elem_of_cons. split; [tauto|].
  intros Hs. split; [|done]. by intros ->.
Qed.

Lemma elem_of_union x a b : x ∈ Lodash.union a b ↔ x ∈ a ∨ x ∈ b.
Proof.
  unfold Lodash.union. rewrite elem_of_uniq, elem_of_app. split; [tauto|].
  intros H. split; [done|]. by inversion 1.
Qed.

Lemma NoDup_union a b : NoDup (Lodash.union a b).
Proof. apply NoDup_uniq. Qed.

(** ** The map of a safe *)

Lemma get_Some_elem k v (m : JsMap.t) : JsMap.get k m = Some v → (k, v) ∈ m.
Proof.
  induction m as [|[k' v'] m IH]; simpl; [done|].
  case_decide; intros ?; simplify_eq; [by left|]. right; by apply IH.
Qed.

Lemma get_None k (m : JsMap.t) : JsMap.get k m = None ↔ k ∉ JsMap.keys m.
Proof.
  unfold JsMap.keys. induction m as [|[k' v'] m IH]; simpl.
  - split; [|done]. by inversion 2.
  - rewrite not_elem_of_cons. case_decide; simpl.
    + split; [done|]. intros [? _]; congruence.
    + rewrite IH. split; [|tauto]. intros ?; split; [congruence|done].
Qed.

Lemma get_elem_NoDup k v (m : JsMap.t) :
  NoDup (JsMap.keys m) → (k, v) ∈ m → JsMap.get k m = Some v.
Proof.
  unfold JsMap.keys. induction m as [|[k' v'] m IH]; simpl; [by inversion 2|].
  rewrite NoDup_cons, elem_of_cons. intros [Hk' Hm] [?|Hin]; simplify_eq.
  - by case_decide.
  - case_decide; [|by apply IH]. subst.
    destruct Hk'. apply list_elem_of_fmap. by exists (k, v).
Qed.

Lemma get_set_eq k v (m : JsMap.t) : JsMap.get k (JsMap.set k v m) = Some v.
Proof.
  induction m as [|[k' v'] m IH]; simpl; [by case_decide|].
  case_decide; simpl; by case_decide.
Qed.

Lemma set_id k v (m : JsMap.t) : JsMap.get k m = Some v → JsMap.set k v m = m.
Proof.
  induction m as [|[k' v'] m IH]; simpl; [done|].
  case_decide; intros ?; simplify_eq; [done|]. by rewrite IH.
Qed.

Lemma elem_of_set e k v (m : JsMap.t) :
  e ∈ JsMap.set k v m → e = (k, v) ∨ e ∈ m.
Proof.
  induction m as [|[k' v'] m IH]; simpl.
  - rewrite list_elem_of_singleton. by left.
  - case_decide; rewrite !elem_of_cons; [tauto|].
    intros [?|?]; [tauto|]. destruct IH; tauto.
Qed.

Lemma keys_set k v (m : JsMap.t) :
  JsMap.keys (JsMap.set k v m)
  = if decide (k ∈ JsMap.keys m) then JsMap.keys m else JsMap.keys m ++ [k].
Proof.
  unfold JsMap.keys. induction m as [|[k' v'] m IH].
  - rewrite decide_False; [done|]. by inversion 1.
  - cbn [JsMap.set]. destruct (decide (k' = k)) as [->|Hk].
    + rewrite !fmap_cons. cbn [fst]. rewrite decide_True; [done|]. by left.
    + rewrite !fmap_cons, IH. cbn [fst].
      destruct (decide (k ∈ fst <$> m)) as [Hin|Hin].
      * rewrite decide_True; [done|]. by right.
      * rewrite decide_False; [done|].
        rewrite elem_of_cons. intros [?|?]; congruence.
Qed.

Lemma NoDup_keys_set k v (m : JsMap.t) :
  NoDup (JsMap.keys m) → NoDup (JsMap.keys (JsMap.set k v m)).
Proof.
  intros Hm. rewrite keys_set. case_decide as Hk; [done|].
  apply NoDup_app. repeat split; [done| |apply NoDup_singleton].
  intros x Hx ->%list_elem_of_singleton. done.
Qed.

(** ** The clean-up loop *)

Section Cleanup.
Context (currentNonce : Z) (digest : string) (info : StagedTransaction).

Local Abbreviation step :=
  (λ (m : JsMap.t) (e : string * StagedTransaction),
     if stale currentNonce digest info e then JsMap.delete e.1 m else m).
Local Abbreviation kept := (λ e, stale currentNonce digest info e = false).

Lemma cleanup_fold (txs : JsMap.t) :
  cleanup currentNonce digest info txs = fold_left step txs txs.
Proof. done. Qed.

Lemma elem_of_delete e k (m : JsMap.t) : e ∈ JsMap.delete k m ↔ e.1 ≠ k ∧ e ∈ m.
Proof. unfold JsMap.delete. by rewrite list_elem_of_filter. Qed.

Lemma fold_step_subset l (m : JsMap.t) e : e ∈ fold_left step l m → e ∈ m.
Proof.
  revert m. induction l as [|e' l IH]; intros m; simpl; [done|].
  intros He%IH. destruct (stale _ _ _ e'); [|done].
  by apply elem_of_delete in He as [_ ?].
Qed.

Lemma fold_step_deleted l (m : JsMap.t) e e' :
  e' ∈ l → stale currentNonce digest info e' = true →
  e ∈ fold_left step l m → e.1 ≠ e'.1.
Proof.
  revert m. induction l as [|e'' l IH]; intros m; [by inversion 1|].
  rewrite elem_of_cons. intros [<-|Hin] Hstale; simpl.
  - rewrite Hstale. intros He%fold_step_subset.
    by apply elem_of_delete in He as [? _].
  - by apply IH.
Qed.

Lemma delete_unique pre e (l : JsMap.t) :
  NoDup (JsMap.keys (pre ++ e :: l)) → JsMap.delete e.1 (pre ++ e :: l) = pre ++ l.
Proof.
  unfold JsMap.keys, JsMap.delete. rewrite fmap_app, fmap_cons.
  intros (Hpre & Hdisj & [He Hl]%NoDup_cons)%NoDup_app.
  rewrite filter_app, filter_cons, decide_False by (by intros []).
  rewrite !filter_all; [done| |].
  - intros x Hx Heq. apply He. rewrite <-Heq. apply list_elem_of_fmap. by exists x.
  - intros x Hx Heq. apply (Hdisj x.1).
    + apply list_elem_of_fmap. by exists x.
    + rewrite Heq. by left.
Qed.

Lemma fold_step_NoDup pre (l : JsMap.t) :
  NoDup (JsMap.keys (pre ++ l)) →
  fold_left step l (pre ++ l) = pre ++ filter kept l.
Proof.
  revert pre. induction l as [|e l IH]; intros pre Hnd; [done|].
  simpl. rewrite filter_cons. destruct (stale _ _ _ e) eqn:He.
  - rewrite delete_unique by done. rewrite decide_False by done.
    apply IH. unfold JsMap.keys in *. rewrite fmap_app in *. rewrite fmap_cons in Hnd.
    apply NoDup_app in Hnd as (? & Hd & [? ?]%NoDup_cons).
    apply NoDup_app. repeat split; [done| |done].
    intros x Hx Hx'. apply (Hd x Hx). by right.
  - rewrite decide_True by done.
    rewrite (cons_middle e pre l), app_assoc in Hnd |- *.
    rewrite IH by done. by rewrite <-app_assoc.
Qed.

Lemma elem_of_cleanup e (txs : JsMap.t) :
  e ∈ cleanup currentNonce digest info txs → e ∈ txs ∧ kept e.
Proof.
  rewrite cleanup_fold. intros He.
  pose proof (fold_step_subset _ _ _ He) as Hin. split; [done|].
  destruct (stale _ _ _ e) eqn:Hs; [|done].
  by destruct (fold_step_deleted _ _ _ _ Hin Hs He).
Qed.

Lemma cleanup_key_gone e (txs : JsMap.t) :
  e ∈ txs → stale currentNonce digest info e = true →
  JsMap.get e.1 (cleanup currentNonce digest info txs) = None.
Proof.
  intros Hin Hs. apply get_None. unfold JsMap.keys.
  intros (e' & Heq & He')%list_elem_of_fmap. rewrite cleanup_fold in He'.
  by destruct (fold_step_deleted _ _ _ _ Hin Hs He').
Qed.

Lemma cleanup_filter (txs : JsMap.t) :
  NoDup (JsMap.keys txs) →
  cleanup currentNonce digest info txs = filter kept txs.
Proof. intros Hnd. rewrite cleanup_fold. by apply (fold_step_NoDup []). Qed.
End Cleanup.
(** ** Writing through the variable *)

Lemma deref_get_or_new key txdb :
  deref txdb (get_or_new key txdb) = default [] (txdb !! key).
Proof.
  unfold get_or_new. destruct (txdb !! key) eqn:H; simpl; [|done]. by rewrite H.
Qed.

Section Loop.
Context (currentNonce : Z) (digest : string) (info : StagedTransaction).

Local Abbreviation step :=
  (λ (m : JsMap.t) (e : string * StagedTransaction),
     if stale currentNonce digest info e then JsMap.delete e.1 m else m).
Local Abbreviation step_ref :=
  (λ '(txs, txdb) (e : string * StagedTransaction),
     if stale currentNonce digest info e then update (JsMap.delete e.1) txs txdb
     else (txs, txdb)).

(** The [Map] is the one of the store: every deletion is seen there. *)
Lemma loop_stored key l (m : JsMap.t) (txdb : TxDb) :
  fold_left step_ref l (Stored key, <[key := m]> txdb)
  = (Stored key, <[key := fold_left step l m]> txdb).
Proof.
  revert m. induction l as [|e l IH]; intros m; [done|].
  simpl. destruct (stale _ _ _ e); [|apply IH].
  by rewrite lookup_insert_eq, insert_insert_eq, IH.
Qed.

(** The [Map] is a new one: the store is not touched. *)
Lemma loop_fresh l (m : JsMap.t) (txdb : TxDb) :
  fold_left step_ref l (Fresh m, txdb) = (Fresh (fold_left step l m), txdb).
Proof.
  revert m. induction l as [|e l IH]; intros m; [done|].
  simpl. destruct (stale _ _ _ e); apply IH.
Qed.

(** The write, the loop and [txdb.set] together leave the cleaned [Map]
    under the safe key, whichever [Map] the variable held. *)
Lemma write_cleanup_set key (txdb : TxDb) :
  let m := cleanup currentNonce digest info
             (JsMap.set digest info (default [] (txdb !! key))) in
  ∀ txs1 txdb1 txs2 txdb2,
    update (JsMap.set digest info) (get_or_new key txdb) txdb = (txs1, txdb1) →
    cleanup_loop currentNonce digest info txs1 txdb1 = (txs2, txdb2) →
    <[key := deref txdb2 txs2]> txdb2 = <[key := m]> txdb
    ∧ deref (<[key := deref txdb2 txs2]> txdb2) txs2 = m.
Proof.
  intros m txs1 txdb1 txs2 txdb2. unfold get_or_new, cleanup_loop.
  destruct (txdb !! key) as [m0|] eqn:Hm0; cbn [update deref].
  - rewrite Hm0. cbn [default from_option]. intros [= <- <-]. cbn [deref].
    rewrite lookup_insert_eq. cbn [default from_option].
    rewrite loop_stored. intros [= <- <-]. cbn [deref].
    rewrite lookup_insert_eq. cbn [default from_option].
    by rewrite insert_insert_eq, lookup_insert_eq.
  - intros [= <- <-]. cbn [deref]. rewrite loop_fresh. by intros [= <- <-].
Qed.
End Loop.

(** ** The handler in two steps *)

Lemma post_staging W req txdb :
  post W req txdb
  = match staging W req txdb with
    | inl (Some e) => (Failed e, txdb)
    | inl None => (Uncaught, ∅)
    | inr c => settle W c req txdb
    end.
Proof.
  unfold post, staging, settle, committed, written.
  destruct (parseSafeParams _ _ _) as [params|]; [|done].
  destruct (truthy_params _) as [[chainId safeAddress]|]; [|done].
  destruct (_ <? _); [done|].
  destruct (getProvider _ _) as [provider|]; [|done].
  destruct (encodeTransactionData (provider safeAddress) _) as [hashData|],
    (nonce (provider safeAddress)) as [currentNonce|]; try done.
  simpl. rewrite deref_get_or_new.
  destruct (acceptance _ _ _ _ _) as [e|sigs']; [done|].
  destruct (Js.concat sigs') as [signatures|]; [|done].
  destruct (negb _); [done|].
  destruct (update _ _ _) as [txs1 txdb1] eqn:H1.
  destruct (cleanup_loop _ _ _ _ _) as [txs2 txdb2] eqn:H2.
  destruct (write_cleanup_set _ _ _ _ _ _ _ _ _ H1 H2) as [-> ->]. done.
Qed.

Lemma staging_txs W req txdb c :
  staging W req txdb = inr c → st_txs c = default [] (txdb !! st_key c).
Proof.
  unfold staging. intros H.
  repeat case_match; simplify_eq; done.
Qed.

(** The sort of the response compares [undefined] with [undefined]. *)
Lemma response_order (l : list StagedTransaction) :
  Lodash.sortBy (Lodash.leb_undefined Z.leb) own_nonce l = l.
Proof. by apply sortBy_constant. Qed.

Lemma settle_Sent W c req txdb l txdb' :
  settle W c req txdb = (Sent l, txdb') →
  ∃ sigs' signatures,
    acceptance W (st_txs c) (st_digest c) (st_currentNonce c) (body req) = inr sigs'
    ∧ Js.concat sigs' = Some signatures
    ∧ checkNSignatures (st_safe c) (st_digest c) (st_hashData c) signatures (length sigs') = true
    ∧ l = JsMap.values (committed c req sigs')
    ∧ txdb' = <[st_key c := committed c req sigs']> txdb.
Proof.
  unfold settle. intros H.
  destruct (acceptance _ _ _ _ _) as [e|sigs'] eqn:Ha; [done|].
  destruct (Js.concat sigs') as [signatures|] eqn:Hs; [|done].
  destruct (checkNSignatures _ _ _ _ _) eqn:Hc; [|done].
  simpl in H. rewrite response_order in H. simplify_eq. by exists sigs', signatures.
Qed.

Lemma post_Sent W req txdb l txdb' :
  post W req txdb = (Sent l, txdb') →
  ∃ c sigs' signatures,
    staging W req txdb = inr c
    ∧ acceptance W (st_txs c) (st_digest c) (st_currentNonce c) (body req) = inr sigs'
    ∧ Js.concat sigs' = Some signatures
    ∧ checkNSignatures (st_safe c) (st_digest c) (st_hashData c) signatures (length sigs') = true
    ∧ l = JsMap.values (committed c req sigs')
    ∧ txdb' = <[st_key c := committed c req sigs']> txdb.
Proof.
  rewrite post_staging. destruct (staging W req txdb) as [[e|]|c] eqn:Hc; [done..|].
  intros (sigs' & signatures & H)%settle_Sent. by exists c, sigs', signatures.
Qed.

Lemma settle_Failed W c req txdb e txdb' :
  settle W c req txdb = (Failed e, txdb') → txdb' = txdb.
Proof.
  unfold settle. intros H. repeat case_match; simplify_eq; done.
Qed.

Lemma post_Failed W req txdb e txdb' :
  post W req txdb = (Failed e, txdb') → txdb' = txdb.
Proof.
  rewrite post_staging. destruct (staging W req txdb) as [[e'|]|c]; [congruence..|].
  apply settle_Failed.
Qed.

Lemma staging_Throws W req txdb :
  staging W req txdb = inl None
  ↔ parseSafeParams W (params_chainId req) (params_safeAddress req) = Throws.
Proof.
  unfold staging. destruct (parseSafeParams _ _ _) as [params|]; [|done].
  split; [|done]. by repeat case_match.
Qed.

(** The handler leaves an exception uncaught only when [parseSafeParams]
    throws. *)
Lemma post_Uncaught W req txdb :
  (post W req txdb).1 = Uncaught
  ↔ parseSafeParams W (params_chainId req) (params_safeAddress req) = Throws.
Proof.
  rewrite <-(staging_Throws W req txdb), post_staging.
  destruct (staging W req txdb) as [[e|]|c]; [done..|].
  split; [|done]. unfold settle. by repeat case_match.
Qed.

Lemma post_Uncaught_store W req txdb txdb' :
  post W req txdb = (Uncaught, txdb') → txdb' = ∅.
Proof.
  rewrite post_staging. destruct (staging W req txdb) as [[e|]|c]; [congruence..|].
  unfold settle. intros H. repeat case_match; simplify_eq.
Qed.

(** ** Reachable stores are tidy *)

Lemma NoDup_fmap_filter {A B} (g : A → B) (P : A → Prop) `{!∀ x, Decision (P x)} l :
  NoDup (g <$> l) → NoDup (g <$> filter P l).
Proof.
  induction l as [|a l IH]; [done|].
  rewrite fmap_cons, NoDup_cons, filter_cons. intros [Ha Hl].
  case_decide; [|by apply IH].
  rewrite fmap_cons, NoDup_cons. split; [|by apply IH].
  intros (x & Hx & Hin%list_elem_of_filter)%list_elem_of_fmap.
  apply Ha, list_elem_of_fmap. exists x. tauto.
Qed.

Lemma isEqual_eq a b : isEqual a b = true ↔ a = b.
Proof.
  unfold isEqual. rewrite !andb_true_iff, !String.eqb_eq, Z.eqb_eq.
  split; [|by intros ->].
  destruct a, b; simpl. intros (((((((((? & ?) & ?) & ?) & ?) & ?) & ?) & ?) & ?) & ?).
  by subst.
Qed.

Lemma stale_false currentNonce digest info e :
  stale currentNonce digest info e = false ↔
  currentNonce ≤ _nonce (txn e.2) ∧ (e.1 = digest ∨ txn e.2 ≠ txn info).
Proof.
  destruct e as [h t]. unfold stale. simpl.
  rewrite orb_false_iff, andb_false_iff, Z.ltb_ge, bool_decide_eq_false.
  rewrite <-not_true_iff_false, isEqual_eq.
  destruct (decide (h = digest)); tauto.
Qed.

Lemma tidy_nil : tidy [].
Proof. split; constructor. Qed.

Lemma payloads_set_filter currentNonce digest info (txs : JsMap.t) :
  NoDup (JsMap.keys txs) → NoDup (txn <$> JsMap.values txs) →
  NoDup (txn <$> JsMap.values
           (filter (λ e, stale currentNonce digest info e = false)
              (JsMap.set digest info txs))).
Proof.
  unfold JsMap.keys, JsMap.values.
  induction txs as [|[k v] r IH]; intros Hk Hp.
  - simpl. rewrite filter_cons. case_decide; [|constructor].
    apply NoDup_singleton.
  - rewrite !fmap_cons in Hk. rewrite !fmap_cons in Hp. cbn [fst snd] in Hk, Hp.
    apply NoDup_cons in Hk as [Hk Hkr]. apply NoDup_cons in Hp as [Hp Hpr].
    cbn [JsMap.set]. destruct (decide (k = digest)) as [->|Hne].
    + rewrite filter_cons.
      assert (NoDup (txn <$> (snd <$> filter (λ e, stale currentNonce digest info e = false) r))).
      { rewrite <-list_fmap_compose. apply NoDup_fmap_filter.
        by rewrite list_fmap_compose. }
      case_decide; [|done].
      rewrite !fmap_cons. apply NoDup_cons. split; [|done].
      intros (t & Ht & (e & -> & [Hkept He]%list_elem_of_filter)%list_elem_of_fmap)%list_elem_of_fmap.
      apply stale_false in Hkept as [_ [Heq|Hneq]]; [|simpl in Ht; congruence].
      apply Hk, list_elem_of_fmap. by exists e.
    + rewrite filter_cons. case_decide as Hkept; [|by apply IH].
      rewrite !fmap_cons. apply NoDup_cons. split; [|by apply IH].
      cbn [snd].
      intros (t & Ht & (e & -> & [_ He]%list_elem_of_filter)%list_elem_of_fmap)%list_elem_of_fmap.
      apply elem_of_set in He as [->|He].
      * apply stale_false in Hkept as [_ [?|Hneq]]; [done|]. simpl in Ht, Hneq. congruence.
      * apply Hp, list_elem_of_fmap. exists e.2. split; [done|].
        apply list_elem_of_fmap. by exists e.
Qed.

Lemma tidy_committed c req sigs' : tidy (st_txs c) → tidy (committed c req sigs').
Proof.
  intros [Hk Hp]. unfold committed.
  rewrite cleanup_filter by by apply NoDup_keys_set.
  split.
  - apply NoDup_fmap_filter. by apply NoDup_keys_set.
  - by apply payloads_set_filter.
Qed.

Lemma reachable_tidy txdb k (m : JsMap.t) :
  reachable txdb → txdb !! k = Some m → tidy m.
Proof.
  intros Hr. revert k m. induction Hr as [|W req txdb Hr IH]; intros k m.
  - by rewrite lookup_empty.
  - destruct (post W req txdb) as [[l|e|] txdb'] eqn:Hpost; simpl.
    + apply post_Sent in Hpost as (c & sigs' & signatures & Hc & _ & _ & _ & _ & ->).
      rewrite lookup_insert. case_decide as Hkey; [|by apply IH].
      intros [= <-]. apply tidy_committed.
      rewrite (staging_txs _ _ _ _ Hc).
      destruct (txdb !! st_key c) as [m0|] eqn:Hm0; simpl; [by eapply IH|apply tidy_nil].
    + apply post_Failed in Hpost as ->. apply IH.
    + apply post_Uncaught_store in Hpost as ->. by rewrite lookup_empty.
Qed.
(** ** The order on strings *)

Lemma string_leb_trans a b c :
  String.leb a b = true → String.leb b c = true → String.leb a c = true.
Proof.
  unfold String.leb. revert b c.
  induction a as [|x a IH]; intros [|y b] [|z c]; simpl; try done.
  unfold Ascii.compare.
  destruct (N.compare_spec (N_of_ascii x) (N_of_ascii y)),
    (N.compare_spec (N_of_ascii y) (N_of_ascii z)),
    (N.compare_spec (N_of_ascii x) (N_of_ascii z));
    try done; try lia; apply IH.
Qed.

Lemma string_leb_total a b : String.leb a b = false → String.leb b a = true.
Proof. intros H. destruct (String.leb_total a b); congruence. Qed.

Lemma StronglySorted_impl {A} (R R' : relation A) (P : A → Prop) l :
  Forall P l → (∀ a b, P a → P b → R a b → R' a b) →
  StronglySorted R l → StronglySorted R' l.
Proof.
  intros HP HR. induction 1 as [|a l Hl IH Ha]; [constructor|].
  apply Forall_cons in HP as [HPa HPl]. constructor; [by apply IH|].
  rewrite Forall_forall in Ha, HPl |- *. intros b Hb. apply HR; auto.
Qed.

(** ** The merge *)

Lemma mergeSigs_Some W digest incoming existing merged :
  mergeSigs W digest incoming existing = Some merged →
  Forall (λ s, is_Some (signerKey W digest s)) (Lodash.union incoming existing)
  ∧ merged = Lodash.sortBy String.leb (λ s, default "" (signerKey W digest s))
               (Lodash.union incoming existing).
Proof.
  unfold mergeSigs. intros H.
  destruct (mapM (signerKey W digest) (Lodash.union incoming existing)) as [ks|] eqn:Hks.
  - rewrite (sortBy_throwing_Some _ _ "" _ _ Hks) in H. split; [|congruence].
    apply (mapM_is_Some_1 (signerKey W digest)). by rewrite Hks.
  - unfold Lodash.sortBy_throwing in H. by rewrite Hks in H.
Qed.

Lemma mergeSigs_sorted W digest incoming existing merged :
  mergeSigs W digest incoming existing = Some merged →
  StronglySorted (signer_le W digest) merged.
Proof.
  intros [Hall ->]%mergeSigs_Some.
  set (g := λ s, default "" (signerKey W digest s)).
  eapply (StronglySorted_impl (λ a b, String.leb (g a) (g b) = true) _
            (λ s, is_Some (signerKey W digest s))).
  - rewrite Forall_forall in Hall |- *. intros s Hs. apply Hall.
    by rewrite elem_of_sortBy in Hs.
  - intros a b [ka Ha] [kb Hb] Hle. exists ka, kb. unfold g in Hle.
    by rewrite Ha, Hb in Hle.
  - apply Sorted_StronglySorted.
    + intros a b c. apply string_leb_trans.
    + apply sortBy_sorted. apply string_leb_total.
Qed.

Lemma acceptance_merge W txs digest currentNonce info existingTx :
  JsMap.get digest txs = Some existingTx →
  acceptance W txs digest currentNonce info
  = match mergeSigs W digest (sigs info) (sigs existingTx) with
    | None => inl InternalFault
    | Some merged =>
        if (MAX_SIGS <? length merged)%nat then inl TooManySignatures else inr merged
    end.
Proof. unfold acceptance. by intros ->. Qed.

Lemma acceptance_first W txs digest currentNonce info :
  JsMap.get digest txs = None →
  acceptance W txs digest currentNonce info
  = if (MAX_TXNS_STAGED <? JsMap.size txs)%nat then inl TooManyStaged
    else if _nonce (txn info) <? currentNonce then inl NonceTooLow
    else if (currentNonce <? _nonce (txn info))
            && negb (existsb (λ tx, _nonce (txn tx) =? _nonce (txn info) - 1)
                             (JsMap.values txs))
    then inl NonceGap
    else inr (sigs info).
Proof. unfold acceptance. by intros ->. Qed.

(** ** Staging the same request again, and the two limits *)

Import Sample.

(** Goals on sample requests are settled by running the handler. *)
Ltac evaluate := vm_compute; reflexivity.

Lemma staging_insert W req txdb c (m : JsMap.t) :
  staging W req txdb = inr c →
  staging W req (<[st_key c := m]> txdb) = inr (with_txs c m).
Proof.
  unfold staging. intros H.
  destruct (parseSafeParams _ _ _) as [params|]; [|done].
  destruct (truthy_params _) as [[chainId safeAddress]|]; [|done].
  destruct (_ <? _); [done|].
  destruct (getProvider _ _) as [provider|]; [|done].
  destruct (encodeTransactionData (provider safeAddress) _) as [hashData|],
    (nonce (provider safeAddress)) as [currentNonce|]; try done.
  simplify_eq. unfold with_txs; simpl. by rewrite lookup_insert_eq.
Qed.

Lemma union_singleton_l s existing :
  Lodash.union [s] existing = s :: Lodash.uniq existing [s].
Proof.
  done.
Qed.

Lemma uniq_after s (l : list string) :
  NoDup l → Lodash.uniq l [s] = filter (λ y, y ≠ s) l.
Proof.
  intros Hl. rewrite uniq_NoDup by done. apply filter_ext_elem.
  intros x _. by rewrite list_elem_of_singleton.
Qed.

(** Merging one signature into a list that came out of a merge with that
    signature gives the list back. *)
Lemma mergeSigs_again W digest s existing merged :
  mergeSigs W digest [s] existing = Some merged →
  mergeSigs W digest [s] merged = Some merged.
Proof.
  intros [Hall ->]%mergeSigs_Some.
  set (g := λ s, default "" (signerKey W digest s)).
  rewrite union_singleton_l in Hall |- *.
  set (rest := Lodash.uniq existing [s]) in *.
  assert (s ∉ rest) as Hs.
  { unfold rest. rewrite elem_of_uniq, list_elem_of_singleton. tauto. }
  assert (NoDup rest) as Hrest by apply NoDup_uniq.
  assert (s ∉ Lodash.sortBy String.leb g rest) as Hs' by by rewrite elem_of_sortBy.
  assert (Lodash.union [s] (Lodash.sortBy String.leb g (s :: rest))
          = s :: Lodash.sortBy String.leb g rest) as Hunion.
  { rewrite union_singleton_l. f_equal.
    rewrite uniq_after.
    - rewrite sortBy_cons. by apply insert_key_filter.
    - rewrite sortBy_perm. by apply NoDup_cons. }
  unfold mergeSigs. rewrite Hunion.
  destruct (mapM (signerKey W digest) (s :: Lodash.sortBy String.leb g rest))
    as [ks|] eqn:Hks.
  - rewrite (sortBy_throwing_Some _ _ "" _ _ Hks). f_equal.
    fold g. rewrite !sortBy_cons. f_equal.
    apply sortBy_of_sorted, sortBy_sorted, string_leb_total.
  - assert (is_Some (mapM (signerKey W digest) (s :: Lodash.sortBy String.leb g rest)))
      as [? ?]; [|congruence].
    apply mapM_is_Some_2. rewrite Forall_forall in Hall |- *.
    intros x Hx. apply Hall. revert Hx.
    rewrite !elem_of_cons, elem_of_sortBy. tauto.
Qed.

Lemma mergeSigs_single W digest s :
  is_Some (signerKey W digest s) → mergeSigs W digest [s] [s] = Some [s].
Proof.
  intros [k Hk]. unfold mergeSigs. rewrite union_singleton_l. simpl.
  rewrite bool_decide_eq_true_2 by by left.
  unfold Lodash.sortBy_throwing. simpl. by rewrite Hk.
Qed.

(** Writing the same entry again and cleaning up against the same nonce. *)
Lemma committed_again c req sigs' :
  NoDup (JsMap.keys (st_txs c)) →
  st_currentNonce c ≤ _nonce (txn (body req)) →
  committed (with_txs c (committed c req sigs')) req sigs' = committed c req sigs'.
Proof.
  intros Hnd Hge. unfold committed at 1. simpl.
  set (info := written req sigs').
  assert (NoDup (JsMap.keys (JsMap.set (st_digest c) info (st_txs c)))) as Hnd'
    by by apply NoDup_keys_set.
  assert (committed c req sigs'
          = filter (λ e, stale (st_currentNonce c) (st_digest c) info e = false)
              (JsMap.set (st_digest c) info (st_txs c))) as Hm
    by by apply cleanup_filter.
  assert (JsMap.get (st_digest c) (committed c req sigs') = Some info) as Hget.
  { apply get_elem_NoDup.
    - rewrite Hm. by apply NoDup_fmap_filter.
    - rewrite Hm. apply list_elem_of_filter. split.
      + apply stale_false. simpl. split; [done|by left].
      + apply get_Some_elem, get_set_eq. }
  rewrite (set_id _ _ _ Hget).
  rewrite cleanup_filter by (rewrite Hm; by apply NoDup_fmap_filter).
  apply filter_all. intros e He. rewrite Hm in He.
  by apply list_elem_of_filter in He as [? _].
Qed.

Lemma reachable_run reqs txdb : reachable txdb → reachable (run reqs txdb).
Proof.
  revert txdb. induction reqs as [|[W req] reqs IH]; intros txdb Hr; [done|].
  apply IH. by constructor.
Qed.

(** Sample stores come from runs of the handler. *)
Ltac reached := apply reachable_run, reachable_init.

(** The capacity check lets a new digest in when the safe holds exactly
    [MAX_TXNS_STAGED] staged transactions. *)
Lemma capacity_lets_one_more_in W txs digest currentNonce info :
  JsMap.get digest txs = None →
  JsMap.size txs = MAX_TXNS_STAGED →
  acceptance W txs digest currentNonce info ≠ inl TooManyStaged.
Proof.
  intros Hnew Hsize. rewrite (acceptance_first _ _ _ _ _ Hnew), Hsize.
  rewrite Nat.ltb_irrefl. by repeat case_match.
Qed.

(** The count of signatures is looked at on the merge only. *)
Lemma first_submission_has_no_signature_limit W txs digest currentNonce info :
  JsMap.get digest txs = None →
  acceptance W txs digest currentNonce info ≠ inl TooManySignatures.
Proof.
  intros Hnew. rewrite (acceptance_first _ _ _ _ _ Hnew). by repeat case_match.
Qed.

Lemma merge_over_limit_is_rejected W req txdb c existingTx merged :
  staging W req txdb = inr c →
  JsMap.get (st_digest c) (st_txs c) = Some existingTx →
  mergeSigs W (st_digest c) (sigs (body req)) (sigs existingTx) = Some merged →
  (MAX_SIGS < length merged)%nat →
  post W req txdb = (Failed TooManySignatures, txdb).
Proof.
  intros Hc Hex Hm Hlen. rewrite post_staging, Hc. unfold settle.
  rewrite (acceptance_merge _ _ _ _ _ _ Hex), Hm.
  by rewrite (proj2 (Nat.ltb_lt _ _)) by done.
Qed.

(** * The claims *)

(** ** C1 *)

(** C1 as stated fails when the safe holds more staged transactions than
    the capacity check allows: 101 are staged, the safe has moved on to
    nonce 3, and a new transaction of nonce 2 is answered TooManyStaged. *)
Lemma first_submission_low_nonce_full_map :
  ∃ c, reachable (filled 101)
     ∧ staging (world 3) (request "0xff" 2 [sig_a]) (filled 101) = inr c
     ∧ JsMap.get (st_digest c) (st_txs c) = None
     ∧ _nonce (txn (body (request "0xff" 2 [sig_a]))) < st_currentNonce c
     ∧ (post (world 3) (request "0xff" 2 [sig_a]) (filled 101)).1 = Failed TooManyStaged
     ∧ (post (world 3) (request "0xff" 2 [sig_a]) (filled 101)).1 ≠ Failed NonceTooLow.
Proof.
  eexists. split; [reached|]. split; [reflexivity|].
  split; [evaluate|]. split; [reflexivity|].
  assert ((post (world 3) (request "0xff" 2 [sig_a]) (filled 101)).1
          = Failed TooManyStaged) as -> by evaluate.
  split; [reflexivity|discriminate].
Qed.

(** C1, as the code has it.  For a POST that reaches the acceptance block
    with a digest that is not staged for the safe: when the safe holds no
    more than [MAX_TXNS_STAGED] staged transactions, a nonce below the
    current nonce of the safe is answered NonceTooLow, and a nonce above it
    with no staged transaction of the preceding nonce is answered NonceGap;
    and a nonce equal to the current nonce is never answered by either of
    the two (however many transactions are staged). *)
Theorem first_submission_nonce_rules W req txdb c :
  staging W req txdb = inr c →
  JsMap.get (st_digest c) (st_txs c) = None →
  ((JsMap.size (st_txs c) ≤ MAX_TXNS_STAGED)%nat →
   _nonce (txn (body req)) < st_currentNonce c →
   (post W req txdb).1 = Failed NonceTooLow)
  ∧ ((JsMap.size (st_txs c) ≤ MAX_TXNS_STAGED)%nat →
     st_currentNonce c < _nonce (txn (body req)) →
     (∀ t, t ∈ JsMap.values (st_txs c) →
           _nonce (txn t) ≠ _nonce (txn (body req)) - 1) →
     (post W req txdb).1 = Failed NonceGap)
  ∧ (_nonce (txn (body req)) = st_currentNonce c →
     (post W req txdb).1 ≠ Failed NonceTooLow
     ∧ (post W req txdb).1 ≠ Failed NonceGap).
Proof.
  intros Hc Hnew. rewrite post_staging, Hc. unfold settle.
  rewrite (acceptance_first _ _ _ _ _ Hnew).
  split; [|split].
  - intros Hsize Hlow.
    rewrite (proj2 (Nat.ltb_ge _ _)) by done.
    by rewrite (proj2 (Z.ltb_lt _ _)) by done.
  - intros Hsize Hhigh Hgap.
    rewrite (proj2 (Nat.ltb_ge _ _)) by done.
    rewrite (proj2 (Z.ltb_ge _ _)) by lia.
    rewrite (proj2 (Z.ltb_lt _ _)) by done.
    replace (existsb _ _) with false; [done|].
    symmetry. apply not_true_iff_false. intros (t & Ht & Heq)%existsb_exists.
    apply list_elem_of_In, Hgap in Ht. lia.
  - intros ->. rewrite Z.ltb_irrefl. simpl.
    destruct (_ <? _)%nat; simpl; [done|].
    destruct (Js.concat _); [|done]. by destruct (negb _).
Qed.

Lemma first_submission_nonce_rules_witness :
  ∃ c, staging (world 5) (request "0xbb" 4 [sig_a]) staged_5 = inr c
     ∧ JsMap.get (st_digest c) (st_txs c) = None
     ∧ (JsMap.size (st_txs c) ≤ MAX_TXNS_STAGED)%nat
     ∧ _nonce (txn (body (request "0xbb" 4 [sig_a]))) < st_currentNonce c
     ∧ (post (world 5) (request "0xbb" 4 [sig_a]) staged_5).1 = Failed NonceTooLow.
Proof.
  eexists. split; [reflexivity|].
  split; [evaluate|]. split; [vm_compute; lia|]. split; [reflexivity|].
  refine (proj1 (first_submission_nonce_rules (world 5) (request "0xbb" 4 [sig_a])
                   staged_5 _ _ _) _ _).
  - reflexivity.
  - evaluate.
  - vm_compute; lia.
  - reflexivity.
Defined.

(** ** C2 *)

(** What holds: a POST that is answered with an error, whichever it is
    (invalid account, body too large, unsupported chain, capacity, nonce,
    signature count, rejected bundle or the catch-all fault for what is
    thrown inside the [try]), leaves the store as it was. *)
Lemma post_error_keeps_store W req txdb e :
  (post W req txdb).1 = Failed e → (post W req txdb).2 = txdb.
Proof.
  destruct (post W req txdb) as [r txdb'] eqn:Hpost; simpl.
  intros ->. by apply post_Failed in Hpost.
Qed.

(** An exception of [parseSafeParams] is not answered: the process ends. *)
Lemma post_Throws W req txdb :
  parseSafeParams W (params_chainId req) (params_safeAddress req) = Throws →
  post W req txdb = (Uncaught, ∅).
Proof. unfold post. by intros ->. Qed.

(** C2 fails on the code for the exception the [try] does not cover.  One
    transaction is staged for the sample safe, and a POST comes for an ICAP
    address on chain 1: [isAddress] accepts the address, [getAddress] throws
    on its lower-cased form, and the call of [parseSafeParams] is before the
    [try].  No reply is sent, the process ends, and the staged transaction
    of the other safe is lost with the store. *)
Theorem post_with_icap_address_ends_the_process :
  isAddress (world 5) icap_address = true
  ∧ getAddress (world 5) (Js.toLowerCase icap_address) = None
  ∧ nonces_of (get (world 5) "1" safe_address staged_5) = inr [5]
  ∧ (post (world 5)
       {| params_chainId := "1"; params_safeAddress := icap_address;
          body := body (request "0xbb" 6 [sig_a]);
          body_length := body_length (request "0xbb" 6 [sig_a]) |}
       staged_5).1 = Uncaught
  ∧ nonces_of
      (get (world 5) "1" safe_address
         (post (world 5)
            {| params_chainId := "1"; params_safeAddress := icap_address;
               body := body (request "0xbb" 6 [sig_a]);
               body_length := body_length (request "0xbb" 6 [sig_a]) |}
            staged_5).2) = inr [].
Proof.
  split; [evaluate|]. split; [evaluate|]. split; [evaluate|]. split; evaluate.
Qed.

(** ** C3 *)

(** C3 as stated fails: the staged signature and the same signature with
    the version byte written 31 are two strings of one signer, and the merge
    keeps both. *)
Lemma merge_keeps_two_signatures_of_one_signer :
  JsMap.get "0xaa05" (default [] (staged_5 !! key)) = Some (body (request "0xaa" 5 [sig_a]))
  ∧ acceptance (world 5) (default [] (staged_5 !! key)) "0xaa05" 5
      (body (request "0xaa" 5 [sig_a_alt])) = inr [sig_a_alt; sig_a]
  ∧ sig_a_alt ≠ sig_a
  ∧ signerKey (world 5) "0xaa05" sig_a_alt = Some "0x1111111111111111111111111111111111111111"
  ∧ signerKey (world 5) "0xaa05" sig_a = Some "0x1111111111111111111111111111111111111111".
Proof.
  split; [evaluate|]. split; [evaluate|].
  split; [apply String.eqb_neq; evaluate|].
  split; evaluate.
Qed.

(** C3, as the code has it.  When a staged transaction exists for the
    digest and the block lets the request through, the signatures it leaves
    in the request are the union of the incoming and the staged lists as
    raw strings (each string once, none lost), in ascending order of the
    lower-cased recovered signer address. *)
Theorem merge_is_union_of_strings_sorted_by_signer
    W txs digest currentNonce info existingTx merged :
  JsMap.get digest txs = Some existingTx →
  acceptance W txs digest currentNonce info = inr merged →
  NoDup merged
  ∧ (∀ s, s ∈ merged ↔ s ∈ sigs info ∨ s ∈ sigs existingTx)
  ∧ StronglySorted (signer_le W digest) merged.
Proof.
  intros Hex. rewrite (acceptance_merge _ _ _ _ _ _ Hex).
  destruct (mergeSigs _ _ _ _) as [m|] eqn:Hm; [|done].
  destruct (_ <? _)%nat; [done|]. intros [= ->].
  pose proof (mergeSigs_sorted _ _ _ _ _ Hm) as Hsorted.
  apply mergeSigs_Some in Hm as [_ ->]. repeat split; [| | |done].
  - rewrite sortBy_perm. apply NoDup_union.
  - rewrite elem_of_sortBy. apply elem_of_union.
  - rewrite elem_of_sortBy. apply elem_of_union.
Qed.

Lemma merge_is_union_of_strings_sorted_by_signer_witness :
  JsMap.get "0xaa05" (default [] (staged_5 !! key)) = Some (body (request "0xaa" 5 [sig_a]))
  ∧ acceptance (world 5) (default [] (staged_5 !! key)) "0xaa05" 5
      (body (request "0xaa" 5 [sig_b])) = inr [sig_b; sig_a]
  ∧ NoDup [sig_b; sig_a]
  ∧ (∀ s, s ∈ [sig_b; sig_a]
          ↔ s ∈ sigs (body (request "0xaa" 5 [sig_b]))
            ∨ s ∈ sigs (body (request "0xaa" 5 [sig_a])))
  ∧ StronglySorted (signer_le (world 5) "0xaa05") [sig_b; sig_a].
Proof.
  split; [evaluate|]. split; [evaluate|].
  apply (merge_is_union_of_strings_sorted_by_signer (world 5)
           (default [] (staged_5 !! key)) "0xaa05" 5).
  - evaluate.
  - evaluate.
Defined.

(** ** C4 *)

(** C4. After a POST that succeeds from a reachable store, the staged
    transactions of the safe all have a nonce at or above the current nonce
    read before the checks, no two of them carry equal transaction payloads,
    and when the nonce of the request equals that current nonce the entry
    just written is still there under its digest. *)
Theorem cleanup_after_commit W req txdb c l :
  reachable txdb →
  staging W req txdb = inr c →
  (post W req txdb).1 = Sent l →
  (∀ t, t ∈ JsMap.values (default [] ((post W req txdb).2 !! st_key c)) →
        st_currentNonce c ≤ _nonce (txn t))
  ∧ NoDup (txn <$> JsMap.values (default [] ((post W req txdb).2 !! st_key c)))
  ∧ (_nonce (txn (body req)) = st_currentNonce c →
     ∃ sigs', JsMap.get (st_digest c) (default [] ((post W req txdb).2 !! st_key c))
              = Some (written req sigs')).
Proof.
  intros Hr Hc Hsent.
  destruct (post W req txdb) as [r txdb'] eqn:Hpost; simpl in *; subst r.
  apply post_Sent in Hpost as (c' & sigs' & signatures & Hc' & _ & _ & _ & _ & ->).
  assert (c' = c) as -> by congruence.
  rewrite lookup_insert_eq; simpl.
  assert (tidy (st_txs c)) as Htidy.
  { rewrite (staging_txs _ _ _ _ Hc).
    destruct (txdb !! st_key c) eqn:Hm; simpl; [by eapply reachable_tidy|apply tidy_nil]. }
  split; [|split].
  - intros t (e & -> & [_ Hkept]%elem_of_cleanup)%list_elem_of_fmap.
    by apply stale_false in Hkept as [? _].
  - by apply tidy_committed.
  - intros Heq. exists sigs'. unfold committed.
    pose proof (NoDup_keys_set (st_digest c) (written req sigs') _ (proj1 Htidy)) as Hnd.
    apply get_elem_NoDup.
    + rewrite cleanup_filter by done. by apply NoDup_fmap_filter.
    + rewrite cleanup_filter by done. apply list_elem_of_filter. split.
      * apply stale_false. simpl. split; [lia|by left].
      * apply get_Some_elem, get_set_eq.
Qed.

Lemma cleanup_after_commit_witness :
  ∃ c l,
    reachable staged_5
    ∧ staging (world 5) (request "0xbb" 6 [sig_a]) staged_5 = inr c
    ∧ (post (world 5) (request "0xbb" 6 [sig_a]) staged_5).1 = Sent l
    ∧ NoDup (txn <$> JsMap.values
               (default [] ((post (world 5) (request "0xbb" 6 [sig_a]) staged_5).2
                            !! st_key c))).
Proof.
  do 2 eexists. split; [reached|].
  split; [reflexivity|]. split; [evaluate|].
  refine (proj1 (proj2 (cleanup_after_commit (world 5) (request "0xbb" 6 [sig_a])
                          staged_5 _ _ _ _ _))).
  - reached.
  - reflexivity.
  - evaluate.
Defined.

(** ** C5 *)

(** C5 fails on the code: a first submission is not counted.  The safe is
    at nonce 0, nothing is staged, and a transaction of nonce 0 comes with
    the signatures of 101 signers: it is staged with all of them. *)
Theorem first_submission_of_101_signers_is_staged :
  length (many_sigs 101) = 101%nat
  ∧ NoDup (signerKey (world 0) "0xaa00" <$> many_sigs 101)
  ∧ (post (world 0) (request "0xaa" 0 (many_sigs 101)) ∅).1
    = Sent [body (request "0xaa" 0 (many_sigs 101))]
  ∧ (post (world 0) (request "0xaa" 0 (many_sigs 101)) ∅).2 !! key
    = Some [("0xaa00", body (request "0xaa" 0 (many_sigs 101)))].
Proof.
  split; [evaluate|]. split.
  - apply (bool_decide_unpack _). vm_compute. exact I.
  - split; evaluate.
Qed.

(** ** C6 *)

(** C6 fails on the code: the check is [txs.size > MAX_TXNS_STAGED].  The
    safe is at nonce 0 with the nonces 0 to 99 staged, 100 transactions, and
    a transaction of nonce 100 under a new digest is staged as the 101st;
    only the 102nd is answered TooManyStaged. *)
Theorem digest_101_is_staged :
  JsMap.size (default [] (filled 100 !! key)) = 100%nat
  ∧ JsMap.get "0xaa64" (default [] (filled 100 !! key)) = None
  ∧ nonces_of (post (world 0) (request "0xaa" 100 [sig_a]) (filled 100)).1
    = inr (Z.of_nat <$> seq 0 101)
  ∧ JsMap.size (default [] ((post (world 0) (request "0xaa" 100 [sig_a]) (filled 100)).2
                            !! key)) = 101%nat
  ∧ (post (world 0) (request "0xaa" 101 [sig_a]) (filled 101)).1 = Failed TooManyStaged.
Proof.
  split; [evaluate|]. split; [evaluate|]. split; [evaluate|]. split; evaluate.
Qed.

(** ** C7 *)

(** C7 fails on the code: the response is sorted by [t._nonce], which no
    staged transaction has, so it comes in the order of the [Map].  With
    nonces 5 and 6 staged, a second transaction of nonce 5 is answered with
    the nonces 5, 6, 5; the GET handler, which reads [t.txn._nonce], gives
    5, 5, 6 for the same store. *)
Theorem response_of_post_is_not_sorted :
  nonces_of (post (world 5) (request "0xcc" 5 [sig_a]) staged_5_6).1 = inr [5; 6; 5]
  ∧ nonces_of (get (world 5) "1" safe_address
                 (post (world 5) (request "0xcc" 5 [sig_a]) staged_5_6).2)
    = inr [5; 5; 6].
Proof. split; evaluate. Qed.

(** ** C8 *)

(** C8 as stated fails once the safe has moved on: the transaction of
    nonce 5 is staged, the safe is now at nonce 6; staging the same
    transaction and signature is answered with the (empty) list while the
    clean-up drops the entry, and staging it once more is answered
    NonceTooLow. *)
Lemma staging_twice_after_the_nonce_moved :
  reachable staged_5
  ∧ (post (world 6) (request "0xaa" 5 [sig_a]) staged_5).1 = Sent []
  ∧ (post (world 6) (request "0xaa" 5 [sig_a]) staged_5).2 !! key = Some []
  ∧ (post (world 6) (request "0xaa" 5 [sig_a])
       (post (world 6) (request "0xaa" 5 [sig_a]) staged_5).2).1 = Failed NonceTooLow.
Proof.
  split; [reached|]. split; [evaluate|]. split; evaluate.
Qed.

(** C8, as the code has it.  Staging a transaction with one signature twice
    in the same world, from a reachable store: when the first POST succeeds,
    the nonce of the transaction is not below the current nonce of the safe
    and the signer of the signature can be recovered, the second POST
    succeeds too, with the same answer, and leaves the store (hence the
    stored signatures) as the first left it. *)
Theorem staging_twice_is_staging_once W req txdb c s l :
  reachable txdb →
  staging W req txdb = inr c →
  sigs (body req) = [s] →
  st_currentNonce c ≤ _nonce (txn (body req)) →
  is_Some (signerKey W (st_digest c) s) →
  (post W req txdb).1 = Sent l →
  post W req (post W req txdb).2 = (Sent l, (post W req txdb).2).
Proof.
  intros Hr Hc Hs Hge Hkey Hsent.
  destruct (post W req txdb) as [r txdb'] eqn:Hpost; simpl in *; subst r.
  apply post_Sent in Hpost
    as (c' & sigs' & signatures & Hc' & Hacc & Hcat & Hcheck & -> & ->).
  assert (c' = c) as -> by congruence.
  assert (NoDup (JsMap.keys (st_txs c))) as Hnd.
  { rewrite (staging_txs _ _ _ _ Hc).
    destruct (txdb !! st_key c) eqn:Hm; simpl; [|constructor].
    by eapply reachable_tidy. }
  pose proof (committed_again c req sigs' Hnd Hge) as Hagain.
  assert (JsMap.get (st_digest c) (committed c req sigs') = Some (written req sigs'))
    as Hget.
  { pose proof (NoDup_keys_set (st_digest c) (written req sigs') _ Hnd) as Hnd'.
    unfold committed. apply get_elem_NoDup.
    - rewrite cleanup_filter by done. by apply NoDup_fmap_filter.
    - rewrite cleanup_filter by done. apply list_elem_of_filter. split.
      + apply stale_false. simpl. split; [done|by left].
      + apply get_Some_elem, get_set_eq. }
  assert (mergeSigs W (st_digest c) [s] sigs' = Some sigs'
          ∧ (length sigs' ≤ MAX_SIGS)%nat) as [Hmerge Hlen].
  { destruct (JsMap.get (st_digest c) (st_txs c)) as [existingTx|] eqn:Hex.
    - rewrite (acceptance_merge _ _ _ _ _ _ Hex), Hs in Hacc.
      destruct (mergeSigs _ _ _ _) as [m|] eqn:Hm; [|done].
      destruct (_ <? _)%nat eqn:Hlt; [done|]. simplify_eq.
      split; [by eapply mergeSigs_again|by apply Nat.ltb_ge].
    - rewrite (acceptance_first _ _ _ _ _ Hex), Hs in Hacc.
      repeat case_match; simplify_eq.
      split; [by apply mergeSigs_single|]. unfold MAX_SIGS; simpl; lia. }
  rewrite post_staging, (staging_insert _ _ _ _ _ Hc). unfold settle. simpl.
  rewrite (acceptance_merge _ _ _ _ _ _ Hget). simpl. rewrite Hs, Hmerge.
  rewrite (proj2 (Nat.ltb_ge _ _)) by done.
  rewrite Hcat, Hcheck, response_order. simpl.
  by rewrite Hagain, insert_insert_eq.
Qed.

Lemma staging_twice_is_staging_once_witness :
  ∃ c l,
    reachable staged_5
    ∧ staging (world 5) (request "0xaa" 5 [sig_b]) staged_5 = inr c
    ∧ sigs (body (request "0xaa" 5 [sig_b])) = [sig_b]
    ∧ st_currentNonce c ≤ _nonce (txn (body (request "0xaa" 5 [sig_b])))
    ∧ is_Some (signerKey (world 5) (st_digest c) sig_b)
    ∧ (post (world 5) (request "0xaa" 5 [sig_b]) staged_5).1 = Sent l
    ∧ post (world 5) (request "0xaa" 5 [sig_b])
        (post (world 5) (request "0xaa" 5 [sig_b]) staged_5).2
      = (Sent l, (post (world 5) (request "0xaa" 5 [sig_b]) staged_5).2).
Proof.
  do 2 eexists. split; [reached|].
  split; [reflexivity|]. split; [reflexivity|].
  split; [vm_compute; discriminate|].
  split; [vm_compute; eexists; reflexivity|].
  split; [evaluate|].
  eapply (staging_twice_is_staging_once (world 5) (request "0xaa" 5 [sig_b]) staged_5).
  - reached.
  - reflexivity.
  - reflexivity.
  - vm_compute; discriminate.
  - vm_compute; eexists; reflexivity.
  - evaluate.
Defined.

(** ** C9 *)

(** C9 as stated fails: there is no reply of its own for a signature whose
    signer cannot be recovered.  With the transaction of nonce 5 staged, a
    second request for it carrying a two-byte signature is answered by the
    catch-all of the handler, status 500. *)
Lemma unrecoverable_signature_on_merge :
  JsMap.get "0xaa05" (default [] (staged_5 !! key)) = Some (body (request "0xaa" 5 [sig_a]))
  ∧ signerKey (world 5) "0xaa05" "0x1234" = None
  ∧ (post (world 5) (request "0xaa" 5 ["0x1234"]) staged_5).1 = Failed InternalFault
  ∧ http_status InternalFault = 500
  ∧ http_body InternalFault = "unexpected error, please check server logs".
Proof.
  split; [evaluate|]. split; [evaluate|]. split; [evaluate|]. split; reflexivity.
Qed.

(** C9, as the code has it.  When the digest is already staged for the
    safe and the signer of one of the submitted signatures cannot be
    recovered, the POST is answered with the catch-all fault of the handler
    (status 500) and nothing is written; the signature is not dropped from a
    merge that goes on without it. *)
Theorem unrecoverable_signature_is_internal_fault W req txdb c existingTx s :
  staging W req txdb = inr c →
  JsMap.get (st_digest c) (st_txs c) = Some existingTx →
  s ∈ sigs (body req) →
  signerKey W (st_digest c) s = None →
  post W req txdb = (Failed InternalFault, txdb).
Proof.
  intros Hc Hex Hs Hkey. rewrite post_staging, Hc. unfold settle.
  rewrite (acceptance_merge _ _ _ _ _ _ Hex). unfold mergeSigs.
  rewrite (sortBy_throwing_None _ _ _ s); [done| |done].
  apply elem_of_union. by left.
Qed.

Lemma unrecoverable_signature_is_internal_fault_witness :
  ∃ c existingTx,
    staging (world 5) (request "0xaa" 5 [sig_b; "0x1234"]) staged_5 = inr c
    ∧ JsMap.get (st_digest c) (st_txs c) = Some existingTx
    ∧ "0x1234" ∈ sigs (body (request "0xaa" 5 [sig_b; "0x1234"]))
    ∧ signerKey (world 5) (st_digest c) "0x1234" = None
    ∧ post (world 5) (request "0xaa" 5 [sig_b; "0x1234"]) staged_5
      = (Failed InternalFault, staged_5).
Proof.
  do 2 eexists.
  split; [reflexivity|]. split; [evaluate|].
  split; [right; left|]. split; [evaluate|].
  eapply (unrecoverable_signature_is_internal_fault (world 5)
            (request "0xaa" 5 [sig_b; "0x1234"]) staged_5 _ _ "0x1234").
  - reflexivity.
  - evaluate.
  - right; left.
  - evaluate.
Defined.

(** ** C10 *)

(** C10. When the digest is already staged for the safe the nonce of the
    request is not looked at: the POST is never answered NonceTooLow or
    NonceGap, and with a nonce below the current nonce of the safe, a
    request whose merged signatures are within the limit and pass the
    contract is answered with the list of staged transactions, yet the
    clean-up has removed the entry it has just written, so that neither the
    list nor the store holds the transaction of the request. *)
Theorem stale_merge_succeeds_and_is_dropped W req txdb c existingTx :
  staging W req txdb = inr c →
  JsMap.get (st_digest c) (st_txs c) = Some existingTx →
  ((post W req txdb).1 ≠ Failed NonceTooLow ∧ (post W req txdb).1 ≠ Failed NonceGap)
  ∧ ∀ merged signatures,
      _nonce (txn (body req)) < st_currentNonce c →
      mergeSigs W (st_digest c) (sigs (body req)) (sigs existingTx) = Some merged →
      (length merged ≤ MAX_SIGS)%nat →
      Js.concat merged = Some signatures →
      checkNSignatures (st_safe c) (st_digest c) (st_hashData c) signatures
        (length merged) = true →
      ∃ l txs',
        post W req txdb = (Sent l, <[st_key c := txs']> txdb)
        ∧ l = JsMap.values txs'
        ∧ (∀ t, t ∈ l → txn t ≠ txn (body req))
        ∧ JsMap.get (st_digest c) txs' = None.
Proof.
  intros Hc Hex. split.
  - rewrite post_staging, Hc. unfold settle.
    rewrite (acceptance_merge _ _ _ _ _ _ Hex).
    destruct (mergeSigs _ _ _ _) as [m|]; [|done].
    destruct (_ <? _)%nat; [done|].
    destruct (Js.concat m); [|done]. by destruct (negb _).
  - intros merged signatures Hlow Hm Hlen Hcat Hcheck.
    exists (JsMap.values (committed c req merged)), (committed c req merged).
    split; [|split; [done|split]].
    + rewrite post_staging, Hc. unfold settle.
      rewrite (acceptance_merge _ _ _ _ _ _ Hex), Hm.
      rewrite (proj2 (Nat.ltb_ge _ _)) by done.
      by rewrite Hcat, Hcheck, response_order.
    + intros t (e & -> & [_ Hkept]%elem_of_cleanup)%list_elem_of_fmap Heq.
      apply stale_false in Hkept as [Hge _]. rewrite Heq in Hge. lia.
    + unfold committed.
      apply (cleanup_key_gone _ _ _ (st_digest c, written req merged)).
      * apply get_Some_elem, get_set_eq.
      * unfold stale. simpl. by rewrite (proj2 (Z.ltb_lt _ _)) by done.
Qed.

Lemma stale_merge_succeeds_and_is_dropped_witness :
  ∃ c existingTx merged signatures,
    staging (world 6) (request "0xaa" 5 [sig_b]) staged_5 = inr c
    ∧ JsMap.get (st_digest c) (st_txs c) = Some existingTx
    ∧ _nonce (txn (body (request "0xaa" 5 [sig_b]))) < st_currentNonce c
    ∧ mergeSigs (world 6) (st_digest c) (sigs (body (request "0xaa" 5 [sig_b])))
        (sigs existingTx) = Some merged
    ∧ (length merged ≤ MAX_SIGS)%nat
    ∧ Js.concat merged = Some signatures
    ∧ checkNSignatures (st_safe c) (st_digest c) (st_hashData c) signatures
        (length merged) = true
    ∧ ∃ l txs',
        post (world 6) (request "0xaa" 5 [sig_b]) staged_5
        = (Sent l, <[st_key c := txs']> staged_5)
        ∧ l = JsMap.values txs'
        ∧ (∀ t, t ∈ l → txn t ≠ txn (body (request "0xaa" 5 [sig_b])))
        ∧ JsMap.get (st_digest c) txs' = None.
Proof.
  do 4 eexists.
  split; [reflexivity|]. split; [evaluate|]. split; [reflexivity|]. split; [evaluate|].
  split; [vm_compute; lia|]. split; [evaluate|]. split; [evaluate|].
  refine (proj2 (stale_merge_succeeds_and_is_dropped (world 6)
                   (request "0xaa" 5 [sig_b]) staged_5 _ _ _ _) _ _ _ _ _ _ _).
  - reflexivity.
  - evaluate.
  - reflexivity.
  - evaluate.
  - vm_compute; lia.
  - evaluate.
  - evaluate.
Defined.

(** * Further properties of the handlers *)

(** ** What the handlers share *)

Lemma pair_of_fst {A B} (p : A * B) a : p.1 = a → p = (a, p.2).
Proof. destruct p. by intros <-. Qed.

Lemma staging_params W req txdb c :
  staging W req txdb = inr c →
  ∃ params chainId safeAddress,
    parseSafeParams W (params_chainId req) (params_safeAddress req) = Returns params
    ∧ truthy_params params = Some (chainId, safeAddress)
    ∧ st_key c = getSafeKey chainId safeAddress.
Proof.
  unfold staging. intros H.
  destruct (parseSafeParams _ _ _) as [params|]; [|done].
  destruct (truthy_params _) as [[chainId safeAddress]|] eqn:Hp; [|done].
  exists params, chainId, safeAddress. split; [done|]. split; [done|].
  repeat case_match; simplify_eq; done.
Qed.

Lemma staging_not_params W req txdb params chainId safeAddress :
  parseSafeParams W (params_chainId req) (params_safeAddress req) = Returns params →
  truthy_params params = Some (chainId, safeAddress) →
  ∀ c, staging W req txdb = inr c → st_key c = getSafeKey chainId safeAddress.
Proof.
  intros Hr Hp c (params' & chainId' & safeAddress' & Hr' & Hp' & ->)%staging_params.
  congruence.
Qed.

(** ** The sort keeps the order of equal keys *)

Section Stable.
Context {A K : Type} `{!EqDecision K} (leb : K → K → bool) (f : A → K).
Hypothesis leb_refl : ∀ k, leb k k = true.

Lemma insert_key_class k x l :
  filter (λ y, f y = k) (Lodash.insert_key leb f x l)
  = filter (λ y, f y = k) (x :: l).
Proof.
  induction l as [|y l IH]; [reflexivity|].
  cbn [Lodash.insert_key]. destruct (leb (f x) (f y)) eqn:Hxy; [done|].
  rewrite (filter_cons _ y), IH, !filter_cons.
  destruct (decide (f x = k)) as [Hx|Hx]; [|done].
  destruct (decide (f y = k)) as [Hy|Hy]; [|done].
  rewrite Hx, Hy, leb_refl in Hxy. done.
Qed.

Lemma sortBy_class k l :
  filter (λ y, f y = k) (Lodash.sortBy leb f l) = filter (λ y, f y = k) l.
Proof.
  induction l as [|x l IH]; [done|].
  by rewrite sortBy_cons, insert_key_class, !filter_cons, IH.
Qed.
End Stable.

Lemma Sorted_weaken {A} (R R' : relation A) l :
  (∀ a b, R a b → R' a b) → Sorted R l → Sorted R' l.
Proof.
  intros HR. induction 1 as [|a l Hl IH Hhd]; constructor; [done|].
  destruct Hhd; constructor. by apply HR.
Qed.

Lemma Z_leb_total a b : Z.leb a b = false → Z.leb b a = true.
Proof. rewrite Z.leb_gt, Z.leb_le. lia. Qed.

(** ** GET *)

(** X1. The GET handler answers, for valid parameters, with the staged
    transactions of the safe, all of them and nothing else, in ascending
    order of nonce; transactions of equal nonce come in the order of the
    [Map], and a safe that is not in the store gives the empty list. *)
Theorem get_lists_the_safe_by_nonce W chainId safeAddress txdb l :
  get W chainId safeAddress txdb = Sent l →
  ∃ params c a,
    parseSafeParams W chainId safeAddress = Returns params
    ∧ truthy_params params = Some (c, a)
    ∧ l ≡ₚ JsMap.values (default [] (txdb !! getSafeKey c a))
    ∧ StronglySorted (λ t1 t2, _nonce (txn t1) ≤ _nonce (txn t2)) l
    ∧ (∀ n, filter (λ t, _nonce (txn t) = n) l
            = filter (λ t, _nonce (txn t) = n)
                (JsMap.values (default [] (txdb !! getSafeKey c a))))
    ∧ (txdb !! getSafeKey c a = None → l = []).
Proof.
  unfold get. destruct (parseSafeParams _ _ _) as [params|]; [|done].
  destruct (truthy_params _) as [[c a]|] eqn:Hp; [|done].
  intros [= <-]. exists params, c, a. split; [done|]. split; [done|].
  split; [apply sortBy_perm|]. split; [|split].
  - apply Sorted_StronglySorted; [intros x y z; lia|].
    eapply Sorted_weaken; [|apply sortBy_sorted, Z_leb_total].
    intros x y. apply Z.leb_le.
  - intros n. apply sortBy_class. apply Z.leb_refl.
  - by intros ->.
Qed.

Lemma get_lists_the_safe_by_nonce_witness :
  ∃ l, get (world 5) "1" safe_address staged_5_6 = Sent l
     ∧ nonces_of (Sent l) = inr [5; 6]
     ∧ StronglySorted (λ t1 t2, _nonce (txn t1) ≤ _nonce (txn t2)) l.
Proof.
  eexists. split; [reflexivity|]. split; [evaluate|].
  destruct (get_lists_the_safe_by_nonce (world 5) "1" safe_address staged_5_6 _ eq_refl)
    as (params & c & a & _ & _ & _ & Hs & _). exact Hs.
Defined.

(** X2. A GET that follows a successful POST for the same safe, in the
    same world, answers with the list the POST has answered with, sorted
    by nonce. *)
Theorem get_after_post W req txdb l txdb' :
  post W req txdb = (Sent l, txdb') →
  get W (params_chainId req) (params_safeAddress req) txdb'
  = Sent (Lodash.sortBy Z.leb (λ t, _nonce (txn t)) l).
Proof.
  intros (c & sigs' & signatures & Hc & _ & _ & _ & -> & ->)%post_Sent.
  apply staging_params in Hc as (params & chainId & safeAddress & Hr & Hp & Hkey).
  unfold get. rewrite Hr, Hp, <-Hkey, lookup_insert_eq. done.
Qed.

Lemma get_after_post_witness :
  ∃ l,
    post (world 5) (request "0xcc" 5 [sig_a]) staged_5_6
    = (Sent l, (post (world 5) (request "0xcc" 5 [sig_a]) staged_5_6).2)
    ∧ nonces_of (Sent l) = inr [5; 6; 5]
    ∧ get (world 5) (params_chainId (request "0xcc" 5 [sig_a]))
        (params_safeAddress (request "0xcc" 5 [sig_a]))
        (post (world 5) (request "0xcc" 5 [sig_a]) staged_5_6).2
      = Sent (Lodash.sortBy Z.leb (λ t, _nonce (txn t)) l).
Proof.
  eexists. split; [apply pair_of_fst; evaluate|]. split; [evaluate|].
  apply (get_after_post (world 5) (request "0xcc" 5 [sig_a]) staged_5_6).
  apply pair_of_fst. evaluate.
Defined.

(** ** POST and the store *)

(** X3. A POST for a safe leaves the [Map] of every other safe key as it
    was, whatever its outcome. *)
Theorem post_leaves_other_safes W req txdb params chainId safeAddress k :
  parseSafeParams W (params_chainId req) (params_safeAddress req) = Returns params →
  truthy_params params = Some (chainId, safeAddress) →
  k ≠ getSafeKey chainId safeAddress →
  (post W req txdb).2 !! k = txdb !! k.
Proof.
  intros Hr Hp Hk. destruct (post W req txdb) as [[l|e|] txdb'] eqn:Hpost; simpl.
  - apply post_Sent in Hpost as (c & sigs' & signatures & Hc & _ & _ & _ & _ & ->).
    rewrite lookup_insert_ne; [done|].
    by rewrite (staging_not_params _ _ _ _ _ _ Hr Hp c Hc).
  - by apply post_Failed in Hpost as ->.
  - apply (f_equal fst), post_Uncaught in Hpost. congruence.
Qed.

Lemma post_leaves_other_safes_witness :
  parseSafeParams (world 5) (params_chainId (request "0xbb" 6 [sig_a]))
    (params_safeAddress (request "0xbb" 6 [sig_a]))
  = Returns (Some (1, safe_address))
  ∧ truthy_params (Some (1, safe_address)) = Some (1, safe_address)
  ∧ "5-0xabab" ≠ getSafeKey 1 safe_address
  ∧ (post (world 5) (request "0xbb" 6 [sig_a]) staged_5).2 !! "5-0xabab"
    = staged_5 !! "5-0xabab".
Proof.
  split; [evaluate|]. split; [evaluate|]. split; [vm_compute; discriminate|].
  apply (post_leaves_other_safes _ _ _ (Some (1, safe_address)) 1 safe_address).
  - evaluate.
  - evaluate.
  - vm_compute; discriminate.
Defined.

(** X4. After a successful POST from a reachable store, the entries of the
    safe under digests other than the one of the request are entries that
    were there before, unchanged: exactly those whose nonce is not below the
    nonce read from the safe and whose transaction differs from the one of
    the request. *)
Theorem post_keeps_or_drops_other_entries W req txdb c l e :
  reachable txdb →
  staging W req txdb = inr c →
  (post W req txdb).1 = Sent l →
  e.1 ≠ st_digest c →
  e ∈ default [] ((post W req txdb).2 !! st_key c)
  ↔ e ∈ st_txs c
    ∧ st_currentNonce c ≤ _nonce (txn e.2)
    ∧ txn e.2 ≠ txn (body req).
Proof.
  intros Hr Hc Hsent He.
  destruct (post W req txdb) as [r txdb'] eqn:Hpost; simpl in *; subst r.
  apply post_Sent in Hpost as (c' & sigs' & signatures & Hc' & _ & _ & _ & _ & ->).
  assert (c' = c) as -> by congruence.
  rewrite lookup_insert_eq; simpl.
  assert (NoDup (JsMap.keys (st_txs c))) as Hnd.
  { rewrite (staging_txs _ _ _ _ Hc).
    destruct (txdb !! st_key c) eqn:Hm; simpl; [|constructor].
    by eapply reachable_tidy. }
  unfold committed.
  rewrite cleanup_filter by by apply NoDup_keys_set.
  rewrite list_elem_of_filter, stale_false. split.
  - intros [[Hge [?|Hne]] Hin]; [done|].
    apply elem_of_set in Hin as [->|Hin]; [by destruct He|].
    simpl in Hne. by repeat split.
  - intros (Hin & Hge & Hne). split; [split; [done|by right]|].
    clear -Hin He. revert Hin. generalize (st_txs c). intros m.
    induction m as [|[k v] m IH]; [by inversion 1|].
    cbn [JsMap.set]. intros [->|Hin]%elem_of_cons.
    + rewrite decide_False by done. by left.
    + destruct (decide (k = st_digest c)); right; [done|by apply IH].
Qed.

Lemma post_keeps_or_drops_other_entries_witness :
  ∃ c l,
    reachable staged_5_6
    ∧ staging (world 6) (request "0xcc" 6 [sig_a]) staged_5_6 = inr c
    ∧ (post (world 6) (request "0xcc" 6 [sig_a]) staged_5_6).1 = Sent l
    ∧ ("0xbb06", body (request "0xbb" 6 [sig_a])).1 ≠ st_digest c
    ∧ ("0xbb06", body (request "0xbb" 6 [sig_a]))
      ∈ default [] ((post (world 6) (request "0xcc" 6 [sig_a]) staged_5_6).2 !! st_key c).
Proof.
  do 2 eexists. split; [reached|]. split; [reflexivity|]. split; [evaluate|].
  split; [vm_compute; discriminate|].
  refine (proj2 (post_keeps_or_drops_other_entries (world 6) (request "0xcc" 6 [sig_a])
                   staged_5_6 _ _ _ _ _ _ _) _).
  - reached.
  - reflexivity.
  - evaluate.
  - vm_compute; discriminate.
  - split; [|split].
    + vm_compute. right; left.
    + vm_compute; discriminate.
    + intros Heq%isEqual_eq. vm_compute in Heq. discriminate.
Defined.

(** ** What a POST writes *)

Lemma staging_digest W req txdb c :
  staging W req txdb = inr c →
  encodeTransactionData (st_safe c) (txn (body req)) = Some (st_hashData c)
  ∧ st_digest c = keccak256 W (st_hashData c).
Proof.
  unfold staging. intros H.
  destruct (parseSafeParams _ _ _) as [params|]; [|done].
  destruct (truthy_params _) as [[chainId safeAddress]|]; [|done].
  destruct (_ <? _); [done|].
  destruct (getProvider _ _) as [provider|]; [|done].
  destruct (encodeTransactionData (provider safeAddress) _) as [hashData|] eqn:He,
    (nonce (provider safeAddress)) as [currentNonce|]; try done.
  by simplify_eq.
Qed.

Lemma length_set k v (m : JsMap.t) :
  length (JsMap.set k v m)
  = if JsMap.get k m is Some _ then length m else S (length m).
Proof.
  induction m as [|[k' v'] m IH]; [done|].
  cbn [JsMap.set JsMap.get]. destruct (decide (k' = k)); [done|].
  simpl. rewrite IH. by destruct (JsMap.get k m).
Qed.

Lemma acceptance_capacity W txs digest currentNonce info sigs' :
  JsMap.get digest txs = None →
  acceptance W txs digest currentNonce info = inr sigs' →
  (JsMap.size txs ≤ MAX_TXNS_STAGED)%nat
  ∧ currentNonce ≤ _nonce (txn info)
  ∧ sigs' = sigs info.
Proof.
  intros Hnew. rewrite (acceptance_first _ _ _ _ _ Hnew).
  destruct (_ <? _)%nat eqn:Hsize; [done|].
  destruct (_ <? _) eqn:Hlow; [done|].
  destruct (_ && _); [done|]. intros [= <-].
  apply Nat.ltb_ge in Hsize. apply Z.ltb_ge in Hlow. done.
Qed.

Lemma length_cleanup currentNonce digest info (m : JsMap.t) :
  (length (cleanup currentNonce digest info m) ≤ length m)%nat.
Proof.
  unfold cleanup. generalize m at 1. intros l. revert m.
  induction l as [|e l IH]; intros m; simpl; [done|].
  etrans; [apply IH|]. destruct (stale _ _ _ e); [apply length_filter|done].
Qed.

(** X5. One successful POST, taken by itself, adds at most one entry to the
    [Map] of its safe, and it adds one only under a digest that was not
    staged, when the [Map] it read held at most [MAX_TXNS_STAGED] entries
    (the test is [txs.size > MAX_TXNS_STAGED]); the answer lists every
    entry the [Map] is left with. *)
Theorem post_adds_at_most_one_entry W req txdb c l :
  staging W req txdb = inr c →
  (post W req txdb).1 = Sent l →
  (JsMap.size (default [] ((post W req txdb).2 !! st_key c)) ≤ S (JsMap.size (st_txs c)))%nat
  ∧ ((JsMap.size (st_txs c) < JsMap.size (default [] ((post W req txdb).2 !! st_key c)))%nat →
     JsMap.get (st_digest c) (st_txs c) = None
     ∧ (JsMap.size (st_txs c) ≤ MAX_TXNS_STAGED)%nat)
  ∧ length l = JsMap.size (default [] ((post W req txdb).2 !! st_key c)).
Proof.
  intros Hc Hsent.
  destruct (post W req txdb) as [r txdb'] eqn:Hpost; simpl in *; subst r.
  apply post_Sent in Hpost as (c' & sigs' & signatures & Hc' & Hacc & _ & _ & -> & ->).
  assert (c' = c) as -> by congruence.
  rewrite lookup_insert_eq; simpl. unfold JsMap.size, JsMap.values, committed.
  pose proof (length_cleanup (st_currentNonce c) (st_digest c) (written req sigs')
                (JsMap.set (st_digest c) (written req sigs') (st_txs c))) as Hlen.
  rewrite length_set in Hlen.
  split; [|split].
  - destruct (JsMap.get _ _); lia.
  - intros Hgrow. destruct (JsMap.get (st_digest c) (st_txs c)) eqn:Hget; [lia|].
    split; [done|]. by apply (acceptance_capacity _ _ _ _ _ _ Hget) in Hacc as [Hcap _].
  - by rewrite length_fmap.
Qed.

Lemma post_adds_at_most_one_entry_witness :
  ∃ c l,
    staging (world 5) (request "0xbb" 6 [sig_a]) staged_5 = inr c
    ∧ (post (world 5) (request "0xbb" 6 [sig_a]) staged_5).1 = Sent l
    ∧ JsMap.size (st_txs c) = 1%nat
    ∧ length l = 2%nat
    ∧ (JsMap.size (default [] ((post (world 5) (request "0xbb" 6 [sig_a]) staged_5).2
                               !! st_key c)) ≤ S (JsMap.size (st_txs c)))%nat.
Proof.
  do 2 eexists. split; [reflexivity|]. split; [evaluate|]. split; [evaluate|].
  split; [evaluate|].
  refine (proj1 (post_adds_at_most_one_entry (world 5) (request "0xbb" 6 [sig_a])
                   staged_5 _ _ _ _)).
  - reflexivity.
  - evaluate.
Defined.

(** X6. A POST under a digest that is not staged, for a safe that holds more
    than [MAX_TXNS_STAGED] staged transactions, is answered TooManyStaged,
    whatever its nonce and signatures, and the store is left as it was. *)
Theorem full_map_rejects_new_digest W req txdb c :
  staging W req txdb = inr c →
  JsMap.get (st_digest c) (st_txs c) = None →
  (MAX_TXNS_STAGED < JsMap.size (st_txs c))%nat →
  post W req txdb = (Failed TooManyStaged, txdb).
Proof.
  intros Hc Hnew Hsize. rewrite post_staging, Hc. unfold settle.
  rewrite (acceptance_first _ _ _ _ _ Hnew).
  by rewrite (proj2 (Nat.ltb_lt _ _)) by done.
Qed.

Lemma full_map_rejects_new_digest_witness :
  ∃ c, staging (world 0) (request "0xaa" 101 [sig_a]) (filled 101) = inr c
     ∧ JsMap.get (st_digest c) (st_txs c) = None
     ∧ (MAX_TXNS_STAGED < JsMap.size (st_txs c))%nat
     ∧ post (world 0) (request "0xaa" 101 [sig_a]) (filled 101)
       = (Failed TooManyStaged, filled 101).
Proof.
  eexists. split; [reflexivity|]. split; [evaluate|]. split; [vm_compute; lia|].
  apply (full_map_rejects_new_digest (world 0) (request "0xaa" 101 [sig_a]) (filled 101) _
           eq_refl).
  - evaluate.
  - vm_compute; lia.
Defined.

(** X7. A successful POST under a digest that is not staged yet, from a
    reachable store, stores the body of the request as it came (the
    signatures in the order sent, neither sorted nor deduplicated) under the
    digest, and the body is in the answer. *)
Theorem first_submission_is_stored_as_sent W req txdb c l :
  reachable txdb →
  staging W req txdb = inr c →
  JsMap.get (st_digest c) (st_txs c) = None →
  (post W req txdb).1 = Sent l →
  JsMap.get (st_digest c) (default [] ((post W req txdb).2 !! st_key c)) = Some (body req)
  ∧ body req ∈ l.
Proof.
  intros Hr Hc Hnew Hsent.
  destruct (post W req txdb) as [r txdb'] eqn:Hpost; simpl in *; subst r.
  apply post_Sent in Hpost as (c' & sigs' & signatures & Hc' & Hacc & _ & _ & -> & ->).
  assert (c' = c) as -> by congruence.
  apply (acceptance_capacity _ _ _ _ _ _ Hnew) in Hacc as (_ & Hge & ->).
  assert (written req (sigs (body req)) = body req) as Hw.
  { unfold written. by destruct (body req). }
  rewrite lookup_insert_eq; simpl.
  assert (NoDup (JsMap.keys (st_txs c))) as Hnd.
  { rewrite (staging_txs _ _ _ _ Hc).
    destruct (txdb !! st_key c) eqn:Hm; simpl; [|constructor].
    by eapply reachable_tidy. }
  pose proof (NoDup_keys_set (st_digest c) (written req (sigs (body req))) _ Hnd) as Hnd'.
  assert ((st_digest c, body req) ∈ committed c req (sigs (body req))) as Hin.
  { unfold committed. rewrite cleanup_filter by done. apply list_elem_of_filter. split.
    - apply stale_false. simpl. split; [done|by left].
    - rewrite <-Hw at 1. apply get_Some_elem, get_set_eq. }
  split.
  - apply get_elem_NoDup; [|done].
    unfold committed. rewrite cleanup_filter by done. by apply NoDup_fmap_filter.
  - apply list_elem_of_fmap. by exists (st_digest c, body req).
Qed.

Lemma first_submission_is_stored_as_sent_witness :
  ∃ c l,
    reachable staged_5
    ∧ staging (world 5) (request "0xbb" 6 [sig_a; sig_b; sig_a]) staged_5 = inr c
    ∧ JsMap.get (st_digest c) (st_txs c) = None
    ∧ (post (world 5) (request "0xbb" 6 [sig_a; sig_b; sig_a]) staged_5).1 = Sent l
    ∧ JsMap.get (st_digest c)
        (default [] ((post (world 5) (request "0xbb" 6 [sig_a; sig_b; sig_a]) staged_5).2
                     !! st_key c))
      = Some (body (request "0xbb" 6 [sig_a; sig_b; sig_a])).
Proof.
  do 2 eexists. split; [reached|]. split; [reflexivity|]. split; [evaluate|].
  split; [evaluate|].
  refine (proj1 (first_submission_is_stored_as_sent (world 5)
                   (request "0xbb" 6 [sig_a; sig_b; sig_a]) staged_5 _ _ _ _ _ _)).
  - reached.
  - reflexivity.
  - evaluate.
  - evaluate.
Defined.

(** X8. On a digest that is staged, with every signature of the request and
    of the staged entry recoverable, the answer is TooManySignatures exactly
    when the incoming and the staged signatures together hold more than
    [MAX_SIGS] distinct strings. *)
Theorem merge_limit_counts_distinct_strings W req txdb c existingTx :
  staging W req txdb = inr c →
  JsMap.get (st_digest c) (st_txs c) = Some existingTx →
  Forall (λ s, is_Some (signerKey W (st_digest c) s)) (sigs (body req) ++ sigs existingTx) →
  (post W req txdb).1 = Failed TooManySignatures
  ↔ (MAX_SIGS < length (Lodash.union (sigs (body req)) (sigs existingTx)))%nat.
Proof.
  intros Hc Hex Hall. rewrite post_staging, Hc. unfold settle.
  rewrite (acceptance_merge _ _ _ _ _ _ Hex).
  assert (∃ ks, mapM (signerKey W (st_digest c))
                  (Lodash.union (sigs (body req)) (sigs existingTx)) = Some ks) as [ks Hks].
  { apply mapM_is_Some, Forall_forall. intros s Hs%elem_of_union.
    rewrite Forall_forall in Hall. apply Hall. by apply elem_of_app. }
  unfold mergeSigs. rewrite (sortBy_throwing_Some _ _ "" _ _ Hks).
  rewrite (Permutation_length (sortBy_perm _ _ _)).
  destruct (_ <? _)%nat eqn:Hlen.
  - apply Nat.ltb_lt in Hlen. done.
  - apply Nat.ltb_ge in Hlen. split; [|lia].
    destruct (Js.concat _); [|done]. by destruct (negb _).
Qed.

Lemma merge_limit_counts_distinct_strings_witness :
  ∃ c existingTx,
    staging (world 0) (request "0xaa" 0 [sig_of 200 27])
      (run [(world 0, request "0xaa" 0 (many_sigs 100))] ∅) = inr c
    ∧ JsMap.get (st_digest c) (st_txs c) = Some existingTx
    ∧ ((post (world 0) (request "0xaa" 0 [sig_of 200 27])
          (run [(world 0, request "0xaa" 0 (many_sigs 100))] ∅)).1 = Failed TooManySignatures
       ↔ (MAX_SIGS < length (Lodash.union (sigs (body (request "0xaa" 0 [sig_of 200 27])))
                               (sigs existingTx)))%nat).
Proof.
  do 2 eexists. split; [reflexivity|]. split; [evaluate|].
  apply (merge_limit_counts_distinct_strings (world 0) (request "0xaa" 0 [sig_of 200 27])
           (run [(world 0, request "0xaa" 0 (many_sigs 100))] ∅) _ _ eq_refl).
  - evaluate.
  - apply (bool_decide_unpack _). vm_compute. exact I.
Defined.

(** X9. The nonce gap test looks one step down only: when some staged
    transaction of the safe has the nonce of the request minus one, the
    request is never answered NonceGap, whether or not the nonces further
    down to the current one are staged. *)
Theorem predecessor_closes_the_gap W req txdb c t :
  staging W req txdb = inr c →
  t ∈ JsMap.values (st_txs c) →
  _nonce (txn t) = _nonce (txn (body req)) - 1 →
  (post W req txdb).1 ≠ Failed NonceGap.
Proof.
  intros Hc Ht Hn. rewrite post_staging, Hc. unfold settle, acceptance.
  destruct (JsMap.get _ _).
  - destruct (mergeSigs _ _ _ _); [|done].
    destruct (_ <? _)%nat; [done|]. destruct (Js.concat _); [|done]. by destruct (negb _).
  - destruct (_ <? _)%nat; [done|]. destruct (_ <? _); [done|].
    assert (existsb (λ tx, _nonce (txn tx) =? _nonce (txn (body req)) - 1)
              (JsMap.values (st_txs c)) = true) as ->.
    { apply existsb_exists. exists t. split; [by apply list_elem_of_In|lia]. }
    rewrite andb_false_r. destruct (Js.concat _); [|done]. by destruct (negb _).
Qed.

Lemma predecessor_closes_the_gap_witness :
  ∃ c, staging (world 5) (request "0xcc" 7 [sig_a]) staged_5_6 = inr c
     ∧ body (request "0xbb" 6 [sig_a]) ∈ JsMap.values (st_txs c)
     ∧ (post (world 5) (request "0xcc" 7 [sig_a]) staged_5_6).1 ≠ Failed NonceGap.
Proof.
  eexists. split; [reflexivity|].
  assert (body (request "0xbb" 6 [sig_a])
          ∈ JsMap.values (default [] (staged_5_6 !! key))) as Hin.
  { apply (bool_decide_unpack _). vm_compute. exact I. }
  split; [exact Hin|].
  apply (predecessor_closes_the_gap (world 5) (request "0xcc" 7 [sig_a]) staged_5_6 _
           (body (request "0xbb" 6 [sig_a])) eq_refl Hin).
  reflexivity.
Defined.

Lemma run_snoc reqs W req txdb :
  run (reqs ++ [(W, req)]) txdb = (post W req (run reqs txdb)).2.
Proof. unfold run. by rewrite fold_left_app. Qed.

(** X10. Every entry of the store, after any sequence of POST requests
    answered from the empty store, was written by one of them: by a request
    [req] of the sequence, answered in its world [W], for which the handler
    got to the acceptance step with the values [c].  The entry is under the
    key of the safe of that request and under the digest the handler
    computed then, [keccak256] of the [encodeTransactionData] its contract
    gave for the transaction of the entry, which is the transaction of the
    request; and the signatures the entry holds, joined in the order stored,
    are what [checkNSignatures] of that contract accepted for that digest,
    with their count as the threshold. *)
Theorem stored_entries_were_checked reqs k (m : JsMap.t) e :
  run reqs ∅ !! k = Some m → e ∈ m →
  ∃ before W req after c signatures,
    reqs = before ++ (W, req) :: after
    ∧ staging W req (run before ∅) = inr c
    ∧ st_key c = k
    ∧ e.1 = st_digest c
    ∧ txn e.2 = txn (body req)
    ∧ encodeTransactionData (st_safe c) (txn e.2) = Some (st_hashData c)
    ∧ st_digest c = keccak256 W (st_hashData c)
    ∧ Js.concat (sigs e.2) = Some signatures
    ∧ checkNSignatures (st_safe c) (st_digest c) (st_hashData c) signatures
        (length (sigs e.2)) = true.
Proof.
  revert k m e. induction reqs as [|[W req] reqs IH] using rev_ind; intros k m e.
  { unfold run; simpl. by rewrite lookup_empty. }
  assert (∀ k m e, run reqs ∅ !! k = Some m → e ∈ m →
          ∃ before W0 req0 after c signatures,
            reqs ++ [(W, req)] = before ++ (W0, req0) :: after
            ∧ staging W0 req0 (run before ∅) = inr c
            ∧ st_key c = k
            ∧ e.1 = st_digest c
            ∧ txn e.2 = txn (body req0)
            ∧ encodeTransactionData (st_safe c) (txn e.2) = Some (st_hashData c)
            ∧ st_digest c = keccak256 W0 (st_hashData c)
            ∧ Js.concat (sigs e.2) = Some signatures
            ∧ checkNSignatures (st_safe c) (st_digest c) (st_hashData c) signatures
                (length (sigs e.2)) = true) as IH'.
  { intros k' m' e' Hm' He'.
    destruct (IH k' m' e' Hm' He') as (before & W0 & req0 & after & c & signatures & -> & H).
    exists before, W0, req0, (after ++ [(W, req)]), c, signatures.
    split; [by rewrite <-app_assoc|done]. }
  rewrite run_snoc.
  destruct (post W req (run reqs ∅)) as [[l|err|] txdb'] eqn:Hpost; simpl.
  - apply post_Sent in Hpost
      as (c & sigs' & signatures & Hc & Hacc & Hcat & Hcheck & _ & ->).
    rewrite lookup_insert. case_decide as Hkey; [|by apply IH'].
    intros [= <-] Hin. unfold committed in Hin.
    apply elem_of_cleanup in Hin as [Hin _].
    apply elem_of_set in Hin as [->|Hin].
    + destruct (staging_digest _ _ _ _ Hc) as [Henc Hd].
      exists reqs, W, req, [], c, signatures. by simpl.
    + rewrite (staging_txs _ _ _ _ Hc) in Hin.
      destruct (run reqs ∅ !! st_key c) as [m0|] eqn:Hm0; simpl in Hin; [|by inversion Hin].
      rewrite <-Hkey. by eapply IH'.
  - apply post_Failed in Hpost as ->. apply IH'.
  - apply post_Uncaught_store in Hpost as ->. by rewrite lookup_empty.
Qed.

Lemma stored_entries_were_checked_witness :
  run [(world 5, request "0xaa" 5 [sig_a]); (world 5, request "0xbb" 6 [sig_b])] ∅ !! key
  = Some [("0xaa05", body (request "0xaa" 5 [sig_a]));
          ("0xbb06", body (request "0xbb" 6 [sig_b]))]
  ∧ ∃ before W req after c signatures,
      [(world 5, request "0xaa" 5 [sig_a]); (world 5, request "0xbb" 6 [sig_b])]
      = before ++ (W, req) :: after
      ∧ staging W req (run before ∅) = inr c
      ∧ ("0xbb06", body (request "0xbb" 6 [sig_b])).1 = st_digest c
      ∧ Js.concat (sigs ("0xbb06", body (request "0xbb" 6 [sig_b])).2) = Some signatures
      ∧ checkNSignatures (st_safe c) (st_digest c) (st_hashData c) signatures
          (length (sigs ("0xbb06", body (request "0xbb" 6 [sig_b])).2)) = true.
Proof.
  assert (run [(world 5, request "0xaa" 5 [sig_a]); (world 5, request "0xbb" 6 [sig_b])] ∅
          !! key
          = Some [("0xaa05", body (request "0xaa" 5 [sig_a]));
                  ("0xbb06", body (request "0xbb" 6 [sig_b]))]) as Hm.
  { evaluate. }
  split; [exact Hm|].
  destruct (stored_entries_were_checked _ key _
              ("0xbb06", body (request "0xbb" 6 [sig_b])) Hm)
    as (before & W & req & after & c & signatures & Hreqs & Hc & _ & Hd & _ & _ & _ & Hs & Hk).
  { right. left. }
  exists before, W, req, after, c, signatures.
  exact (conj Hreqs (conj Hc (conj Hd (conj Hs Hk)))).
Defined.

(** ** The sort key of a signature *)

Lemma adjust_version_snoc bs v :
  adjust_version (bs ++ [v]) = bs ++ [if 30 <? v then v - 4 else v].
Proof.
  unfold adjust_version. rewrite last_snoc, length_app. simpl.
  destruct (30 <? v); [|done].
  replace (pred (length bs + 1)) with (length bs + 0)%nat by lia.
  by rewrite insert_app_r.
Qed.

(** X11. Two signatures whose bytes differ only in the version byte, one
    written with the offset of 4 (31 to 34) and the other without (27 to
    30), are sorted under the same key. *)
Theorem signer_key_ignores_version_offset W digest s s' bs v :
  Js.getBytes s = Some (bs ++ [v]) →
  Js.getBytes s' = Some (bs ++ [v - 4]) →
  30 < v ≤ 34 →
  signerKey W digest s = signerKey W digest s'.
Proof.
  intros Hs Hs' Hv. unfold signerKey. rewrite Hs, Hs', !adjust_version_snoc.
  rewrite (proj2 (Z.ltb_lt 30 v)) by lia.
  by rewrite (proj2 (Z.ltb_ge 30 (v - 4))) by lia.
Qed.

Lemma signer_key_ignores_version_offset_witness :
  Js.getBytes sig_a_alt = Some (replicate 64 17 ++ [31])
  ∧ Js.getBytes sig_a = Some (replicate 64 17 ++ [31 - 4])
  ∧ signerKey (world 5) "0xaa05" sig_a_alt = signerKey (world 5) "0xaa05" sig_a.
Proof.
  split; [evaluate|]. split; [evaluate|].
  apply (signer_key_ignores_version_offset (world 5) "0xaa05" sig_a_alt sig_a
           (replicate 64 17) 31); [evaluate|evaluate|lia].
Defined.

Lemma NoDup_fmap_elem_inj {A B} (f : A → B) l x y :
  NoDup (f <$> l) → x ∈ l → y ∈ l → f x = f y → x = y.
Proof.
  induction l as [|a l IH]; [by inversion 2|].
  rewrite fmap_cons, NoDup_cons, !elem_of_cons.
  intros [Ha Hl] [->|Hx] [->|Hy] Hf; [done| | |by apply IH].
  - destruct Ha. rewrite Hf. by apply list_elem_of_fmap_2.
  - destruct Ha. rewrite <-Hf. by apply list_elem_of_fmap_2.
Qed.

Lemma StronglySorted_unique_on {A} (R : relation A) l1 l2 :
  (∀ x1 x2, x1 ∈ l1 → x2 ∈ l2 → R x1 x2 → R x2 x1 → x1 = x2) →
  StronglySorted R l1 → StronglySorted R l2 → l1 ≡ₚ l2 → l1 = l2.
Proof.
  intros Hasym Hl1. revert l2 Hasym.
  induction Hl1 as [|x1 l1 ? IH Hx1]; intros l2 Hasym Hl2 E.
  { symmetry. by apply Permutation_nil. }
  destruct Hl2 as [|x2 l2 ? Hx2].
  { by apply Permutation_nil_r in E. }
  assert (x1 = x2) as ->.
  { rewrite Forall_forall in Hx1, Hx2.
    assert (x2 ∈ x1 :: l1) as Hx2' by (rewrite E; left).
    assert (x1 ∈ x2 :: l2) as Hx1' by (rewrite <-E; left).
    apply elem_of_cons in Hx1' as [?|Hx1'], Hx2' as [?|Hx2']; try done.
    apply Hasym; [left|left|by apply Hx1|by apply Hx2]. }
  f_equal. apply IH; [|done|by apply (inj (x2 ::.))].
  intros ????. apply Hasym; by right.
Qed.

(** X12. The merge does not depend on the order the signatures arrived in:
    when the merged signatures have pairwise distinct sort keys, any other
    split of the same signatures between the request and the staged entry,
    in any order, gives the same merged list. *)
Theorem merge_ignores_arrival_order W digest a b a' b' merged :
  (∀ s, s ∈ a ∨ s ∈ b ↔ s ∈ a' ∨ s ∈ b') →
  mergeSigs W digest a b = Some merged →
  NoDup (signerKey W digest <$> merged) →
  mergeSigs W digest a' b' = Some merged.
Proof.
  intros Hsame Hm Hnd.
  pose proof (mergeSigs_sorted _ _ _ _ _ Hm) as Hsorted.
  pose proof Hm as [Hall Heq]%mergeSigs_Some.
  assert (∃ ks, mapM (signerKey W digest) (Lodash.union a' b') = Some ks) as [ks Hks].
  { apply mapM_is_Some, Forall_forall. intros s Hs%elem_of_union.
    rewrite Forall_forall in Hall. apply Hall, elem_of_union. by apply Hsame. }
  assert (mergeSigs W digest a' b'
          = Some (Lodash.sortBy String.leb (λ s, default "" (signerKey W digest s))
                    (Lodash.union a' b'))) as Hm'.
  { unfold mergeSigs. by rewrite (sortBy_throwing_Some _ _ "" _ _ Hks). }
  rewrite Hm'. f_equal. symmetry.
  pose proof (mergeSigs_sorted _ _ _ _ _ Hm') as Hsorted'.
  assert (merged ≡ₚ Lodash.sortBy String.leb (λ s, default "" (signerKey W digest s))
                      (Lodash.union a' b')) as Hperm.
  { rewrite Heq, !sortBy_perm. apply NoDup_Permutation; [apply NoDup_union..|].
    intros s. rewrite !elem_of_union. apply Hsame. }
  apply (StronglySorted_unique_on (signer_le W digest)); [|done..].
  intros x1 x2 Hx1 Hx2 (k1 & k2 & Hk1 & Hk2 & Hle) (k2' & k1' & Hk2' & Hk1' & Hle').
  rewrite <-Hperm in Hx2. apply (NoDup_fmap_elem_inj _ _ _ _ Hnd Hx1 Hx2).
  simplify_eq. rewrite Hk1, Hk2. f_equal. by apply String.leb_antisym.
Qed.

Lemma merge_ignores_arrival_order_witness :
  mergeSigs (world 5) "0xaa05" [sig_a] [sig_b] = Some [sig_b; sig_a]
  ∧ mergeSigs (world 5) "0xaa05" [sig_b] [sig_a] = Some [sig_b; sig_a].
Proof.
  split; [evaluate|].
  apply (merge_ignores_arrival_order (world 5) "0xaa05" [sig_a] [sig_b] [sig_b] [sig_a]).
  - intros s. tauto.
  - evaluate.
  - apply (bool_decide_unpack _). vm_compute. exact I.
Defined.

(** ** The chain id in the path and in the key *)

Lemma digit_value_pretty_N_char (d : N) :
  (d < 10)%N → Js.digit_value 10 (pretty_N_char d) = Some (Z.of_N d).
Proof.
  intros Hd.
  assert (d = 0 ∨ d = 1 ∨ d = 2 ∨ d = 3 ∨ d = 4 ∨ d = 5 ∨ d = 6 ∨ d = 7 ∨ d = 8 ∨ d = 9)%N
    as Hcases by lia.
  by repeat destruct Hcases as [->|Hcases]; [..|subst d].
Qed.

Lemma N_last_digit (x : N) :
  10 * Z.of_N (x `div` 10) + Z.of_N (x `mod` 10) = Z.of_N x.
Proof. pose proof (N.div_mod x 10 ltac:(done)) as H. rewrite H at 3. lia. Qed.

Lemma pretty_N_go_app x s r : pretty_N_go x s +:+ r = pretty_N_go x (s +:+ r).
Proof.
  revert s. induction (N.lt_wf_0 x) as [x _ IH]; intros s.
  destruct (decide (0 < x)%N) as [Hx|Hx].
  - rewrite (pretty_N_go_step x s), (pretty_N_go_step x (s +:+ r)) by done.
    rewrite IH by (apply N.div_lt; lia). reflexivity.
  - replace x with 0%N by lia. by rewrite !pretty_N_go_0.
Qed.

Lemma parse_digits_pretty_N_go x s :
  (0 < x)%N →
  Js.parse_digits 10 (pretty_N_go x s) None = Js.parse_digits 10 s (Some (Z.of_N x)).
Proof.
  revert s. induction (N.lt_wf_0 x) as [x _ IH]; intros s Hx.
  rewrite pretty_N_go_step by done.
  assert (x `mod` 10 < 10)%N as Hd by (apply N.mod_lt; lia).
  destruct (N.eq_dec (x `div` 10)%N 0%N) as [Hz|Hq%N.neq_0_lt_0].
  - rewrite Hz, pretty_N_go_0.
    cbn [Js.parse_digits]. rewrite digit_value_pretty_N_char by done.
    do 2 f_equal. simpl default. rewrite <-(N_last_digit x), Hz. lia.
  - rewrite IH by (done || apply N.div_lt; lia).
    cbn [Js.parse_digits]. rewrite digit_value_pretty_N_char by done.
    do 2 f_equal. simpl default. apply N_last_digit.
Qed.

(** The decimal form of a positive number starts with a digit from 1 to 9. *)
Lemma pretty_N_go_head x s :
  (0 < x)%N →
  ∃ d r, pretty_N_go x s = String (pretty_N_char d) r ∧ (0 < d < 10)%N.
Proof.
  revert s. induction (N.lt_wf_0 x) as [x _ IH]; intros s Hx.
  rewrite pretty_N_go_step by done.
  destruct (N.eq_dec (x `div` 10)%N 0%N) as [Hz|Hq%N.neq_0_lt_0].
  - rewrite Hz, pretty_N_go_0.
    exists (x `mod` 10)%N, s. split; [done|].
    assert (x `mod` 10 < 10)%N by (apply N.mod_lt; lia).
    pose proof (N_last_digit x) as Hl. rewrite Hz in Hl. lia.
  - apply IH; [apply N.div_lt; lia|done].
Qed.

Lemma parse_digits_is_Some radix s a : is_Some (Js.parse_digits radix s (Some a)).
Proof.
  revert a. induction s as [|c s IH]; intros a; simpl; [done|].
  by destruct (Js.digit_value radix c).
Qed.

(** [Number.parseInt] reads the decimal form of a positive number back,
    whatever follows it that does not start with a digit. *)
Lemma parseInt_pretty (n : Z) (r : string) :
  0 < n →
  Js.parse_digits 10 r None = None →
  Js.parseInt (pretty n +:+ r) = Some n.
Proof.
  intros Hn Hr. destruct n as [|p|p]; try lia.
  unfold pretty, pretty_Z, pretty, pretty_positive, pretty, pretty_N.
  rewrite decide_False by done. rewrite pretty_N_go_app.
  change ("" +:+ r) with r.
  assert (Js.parse_digits 10 (pretty_N_go (N.pos p) r) None = Some (Z.pos p)) as Hp.
  { rewrite parse_digits_pretty_N_go by lia.
    destruct r as [|c r]; [done|]. cbn [Js.parse_digits] in *.
    destruct (Js.digit_value 10 c) as [d|]; [|done].
    destruct (parse_digits_is_Some 10 r (10 * default 0 None + d)) as [? Hs].
    by rewrite Hr in Hs. }
  destruct (pretty_N_go_head (N.pos p) r) as (d & r' & Heq & Hd); [lia|].
  rewrite Heq in Hp |- *.
  assert (d = 1 ∨ d = 2 ∨ d = 3 ∨ d = 4 ∨ d = 5 ∨ d = 6 ∨ d = 7 ∨ d = 8 ∨ d = 9)%N
    as Hcases by lia.
  repeat destruct Hcases as [->|Hcases]; [..|subst d];
    cbn [pretty_N_char] in Hp |- *;
    unfold Js.parseInt; cbn [Js.trim_start]; change (Js.is_space _) with false;
    cbn -[Js.parse_digits]; rewrite Hp; f_equal; lia.
Qed.

(** X13. The key of a safe tells the chain and the lower-cased address
    apart: two safes share a [Map] of the store only when they are on the
    same chain and their addresses agree up to case. *)
Theorem safe_keys_do_not_collide chainId1 safeAddress1 chainId2 safeAddress2 :
  0 < chainId1 → 0 < chainId2 →
  getSafeKey chainId1 safeAddress1 = getSafeKey chainId2 safeAddress2
  ↔ chainId1 = chainId2 ∧ Js.toLowerCase safeAddress1 = Js.toLowerCase safeAddress2.
Proof.
  intros H1 H2. unfold getSafeKey. split; [|by intros [-> ->]].
  intros Heq.
  assert (chainId1 = chainId2) as ->.
  { pose proof (parseInt_pretty chainId1 ("-" +:+ Js.toLowerCase safeAddress1) H1 eq_refl) as P1.
    pose proof (parseInt_pretty chainId2 ("-" +:+ Js.toLowerCase safeAddress2) H2 eq_refl) as P2.
    rewrite Heq in P1. congruence. }
  split; [done|].
  apply (inj (String.append (pretty chainId2))) in Heq.
  by apply (inj (String.append "-")) in Heq.
Qed.

Lemma safe_keys_do_not_collide_witness :
  getSafeKey 1 safe_address = getSafeKey 1 "0xABABABABABABABABABABABABABABABABABABABAB"
  ↔ 1 = 1 ∧ Js.toLowerCase safe_address
            = Js.toLowerCase "0xABABABABABABABABABABABABABABABABABABABAB".
Proof. apply (safe_keys_do_not_collide 1 safe_address 1); lia. Defined.

(** X14. The chain id of the path is read as a decimal number and what
    follows its digits is ignored.  For a positive number [n] written in
    decimal, followed by anything that does not start with a digit:
    [parseSafeParams] returns the empty object when [n] is no safe integer
    or [isAddress] refuses the address; otherwise it calls [getAddress] on
    the lower-cased address and returns the chain [n] with the address that
    call gives, or throws when that call throws. *)
Theorem chain_id_is_read_in_decimal W n rest safeAddress :
  0 < n →
  Js.parse_digits 10 rest None = None →
  parseSafeParams W (pretty n +:+ rest) safeAddress
  = if (n <=? Js.MAX_SAFE_INTEGER) && isAddress W safeAddress
    then match getAddress W (Js.toLowerCase safeAddress) with
         | Some address => Returns (Some (n, address))
         | None => Throws
         end
    else Returns None.
Proof.
  intros Hn Hrest. unfold parseSafeParams. rewrite (parseInt_pretty n rest Hn Hrest).
  unfold Js.isSafeInteger.
  rewrite (proj2 (Z.leb_le (- Js.MAX_SAFE_INTEGER) n)) by (unfold Js.MAX_SAFE_INTEGER; lia).
  rewrite (proj2 (Z.ltb_ge n 1)) by lia.
  destruct (n <=? _); [|done]. simpl. by destruct (isAddress W safeAddress).
Qed.

Lemma chain_id_is_read_in_decimal_witness :
  parseSafeParams (world 5) (pretty 1 +:+ "abc") safe_address
  = Returns (Some (1, safe_address))
  ∧ parseSafeParams (world 5) (pretty 1 +:+ "abc") icap_address = Throws.
Proof.
  split.
  - rewrite (chain_id_is_read_in_decimal (world 5) 1 "abc" safe_address); [evaluate|lia|done].
  - rewrite (chain_id_is_read_in_decimal (world 5) 1 "abc" icap_address); [evaluate|lia|done].
Defined.

Lemma set_absent k v (m : JsMap.t) :
  JsMap.get k m = None → JsMap.set k v m = m ++ [(k, v)].
Proof.
  induction m as [|[k' v'] m IH]; [done|]. cbn [JsMap.get JsMap.set].
  destruct (decide (k' = k)); [done|]. intros Hm. by rewrite IH.
Qed.

(** X15. The answer to a successful POST under a digest that is not staged
    yet, from a reachable store, is in staging order with the request last:
    the staged transactions of the safe that are neither below the current
    nonce nor the transaction of the request, in the order they were first
    staged, followed by the body of the request. *)
Theorem new_digest_is_answered_last W req txdb c l :
  reachable txdb →
  staging W req txdb = inr c →
  JsMap.get (st_digest c) (st_txs c) = None →
  (post W req txdb).1 = Sent l →
  l = JsMap.values
        (filter (λ e, st_currentNonce c ≤ _nonce (txn e.2) ∧ txn e.2 ≠ txn (body req))
           (st_txs c))
      ++ [body req].
Proof.
  intros Hr Hc Hnew Hsent.
  destruct (post W req txdb) as [r txdb'] eqn:Hpost; simpl in *; subst r.
  apply post_Sent in Hpost as (c' & sigs' & signatures & Hc' & Hacc & _ & _ & -> & _).
  assert (c' = c) as -> by congruence.
  apply (acceptance_capacity _ _ _ _ _ _ Hnew) in Hacc as (_ & Hge & ->).
  assert (written req (sigs (body req)) = body req) as Hw.
  { unfold written. by destruct (body req). }
  assert (NoDup (JsMap.keys (st_txs c))) as Hnd.
  { rewrite (staging_txs _ _ _ _ Hc).
    destruct (txdb !! st_key c) eqn:Hm; simpl; [|constructor].
    by eapply reachable_tidy. }
  unfold committed. rewrite cleanup_filter by by apply NoDup_keys_set.
  rewrite Hw, (set_absent _ _ _ Hnew), filter_app. unfold JsMap.values.
  rewrite fmap_app. f_equal.
  - f_equal. apply filter_ext_elem. intros [h t] Hin. rewrite stale_false. simpl.
    assert (h ≠ st_digest c) as Hh.
    { intros ->. apply get_None in Hnew. apply Hnew.
      apply list_elem_of_fmap. by exists (st_digest c, t). }
    tauto.
  - rewrite filter_cons, filter_nil, decide_True; [done|].
    apply stale_false. simpl. split; [done|by left].
Qed.

Lemma new_digest_is_answered_last_witness :
  ∃ c l,
    reachable staged_5_6
    ∧ staging (world 6) (request "0xcc" 7 [sig_a]) staged_5_6 = inr c
    ∧ (post (world 6) (request "0xcc" 7 [sig_a]) staged_5_6).1 = Sent l
    ∧ nonces_of (Sent l) = inr [6; 7]
    ∧ l = JsMap.values
            (filter (λ e, st_currentNonce c ≤ _nonce (txn e.2)
                          ∧ txn e.2 ≠ txn (body (request "0xcc" 7 [sig_a])))
               (st_txs c))
          ++ [body (request "0xcc" 7 [sig_a])].
Proof.
  do 2 eexists. split; [reached|]. split; [reflexivity|].
  assert ((post (world 6) (request "0xcc" 7 [sig_a]) staged_5_6).1
          = Sent [body (request "0xbb" 6 [sig_a]); body (request "0xcc" 7 [sig_a])]) as Hsent.
  { evaluate. }
  split; [exact Hsent|]. split; [evaluate|].
  apply (new_digest_is_answered_last (world 6) (request "0xcc" 7 [sig_a]) staged_5_6 _ _).
  - reached.
  - reflexivity.
  - evaluate.
  - exact Hsent.
Defined.

(** ** The providers *)

Lemma getProvider_registered chains chainId (providers : gmap Z string) p :
  providers !! chainId = Some p →
  Providers.getProvider chains chainId providers = (Some p, providers).
Proof. unfold Providers.getProvider. by intros ->. Qed.




Lemma fold_register_None network urls :
  fold_left (Providers.register network) urls None = None.
Proof. by induction urls. Qed.

Lemma fold_register_snoc network urls u ps0 :
  fold_left (Providers.register network) (urls ++ [u]) ps0
  = Providers.register network (fold_left (Providers.register network) urls ps0) u.
Proof. by rewrite fold_left_app. Qed.

Lemma fold_register_lookup network urls (ps0 ps : gmap Z string) chainId :
  fold_left (Providers.register network) urls (Some ps0) = Some ps →
  ps !! chainId
  = match last (filter (λ u, network u = Some chainId) urls) with
    | Some u => Some u
    | None => ps0 !! chainId
    end.
Proof.
  revert ps. induction urls as [|u urls IH] using rev_ind; intros ps.
  - by intros [= ->].
  - rewrite fold_register_snoc, filter_app, filter_cons, filter_nil.
    destruct (fold_left _ urls _) as [ps1|]; [|done]. simpl.
    destruct (network u) as [i|] eqn:Hu; [|done]. intros [= <-].
    case_decide as Hi.
    + simplify_eq. by rewrite last_snoc, lookup_insert_eq.
    + rewrite app_nil_r, lookup_insert_ne by congruence. by apply IH.
Qed.

(** X17. When the server gets to listen, the provider of a chain is the one
    made from the last URL of [RPC_URLS] whose node reported that chain, and
    a chain no node reported has none; such a provider is returned by
    [getProvider] before the chain list is looked at. *)
Theorem startup_last_url_wins network RPC_URLS (providers : gmap Z string) chainId :
  Providers.startup network RPC_URLS = Some providers →
  providers !! chainId
  = last (filter (λ u, network u = Some chainId) (Providers.rpc_urls RPC_URLS))
  ∧ ∀ chains p, providers !! chainId = Some p →
      Providers.getProvider chains chainId providers = (Some p, providers).
Proof.
  intros Hs. split; [|intros chains p; apply getProvider_registered].
  rewrite (fold_register_lookup _ _ _ _ chainId Hs).
  by destruct (last _).
Qed.

Lemma startup_last_url_wins_witness :
  Providers.startup (λ u, if String.eqb u "c" then Some 10 else Some 1) (Some "a,b,c")
  = Some {[ 1 := "b"; 10 := "c" ]}
  ∧ ({[ 1 := "b"; 10 := "c" ]} : gmap Z string) !! 1
    = last (filter (λ u, (if String.eqb u "c" then Some 10 else Some 1) = Some 1)
              (Providers.rpc_urls (Some "a,b,c"))).
Proof.
  assert (Providers.startup (λ u, if String.eqb u "c" then Some 10 else Some 1) (Some "a,b,c")
          = Some {[ 1 := "b"; 10 := "c" ]}) as Hs.
  { apply (bool_decide_unpack _). vm_compute. exact I. }
  split; [exact Hs|].
  apply (startup_last_url_wins _ (Some "a,b,c") _ 1 Hs).
Defined.

Lemma split_comma_not_nil s : Providers.split_comma s ≠ [].
Proof.
  destruct s as [|c r]; [done|]. simpl.
  destruct (Ascii.eqb c ","); [done|]. by destruct (Providers.split_comma r).
Qed.

(** X18. Start-up gets to listen exactly when the node of every URL of
    [RPC_URLS] reports its chain.  With the variable set, to the empty
    string too, there is at least one URL to ask, so the server then listens
    with at least one provider registered; with the variable unset it
    listens with none. *)
Theorem startup_needs_every_node network RPC_URLS :
  (is_Some (Providers.startup network RPC_URLS)
   ↔ Forall (λ u, is_Some (network u)) (Providers.rpc_urls RPC_URLS))
  ∧ (∀ providers, Providers.startup network RPC_URLS = Some providers →
       providers = ∅ ↔ RPC_URLS = None).
Proof.
  unfold Providers.startup. split.
  - generalize (∅ : gmap Z string).
    induction (Providers.rpc_urls RPC_URLS) as [|u urls IH]; intros ps0; simpl.
    + split; [constructor|by eexists].
    + rewrite Forall_cons. destruct (network u) as [i|].
      * rewrite IH. split; [by split; [eexists|]|tauto].
      * rewrite fold_register_None. split; [by intros [? ?]|by intros [[? ?] _]].
  - intros providers Hs. split.
    + intros ->. destruct RPC_URLS as [s|]; [|done]. exfalso.
      simpl in Hs. pose proof (split_comma_not_nil s) as Hne.
      destruct (Providers.split_comma s) as [|u urls _] using rev_ind; [done|].
      rewrite fold_register_snoc in Hs.
      destruct (fold_left _ urls _) as [ps1|]; [|done]. simpl in Hs.
      destruct (network u) as [i|]; [|done]. simplify_eq.
      by apply (insert_non_empty ps1 i u).
    + intros ->. simpl in Hs. by simplify_eq.
Qed.

(** ** The handlers before the digest-keyed store *)

Lemma legacy_post_Failed W J req txdb e txdb' :
  Legacy.post W J req txdb = (Legacy.Failed e, txdb') → txdb' = txdb.
Proof.
  unfold Legacy.post. intros H.
  repeat match type of H with
         | context [match ?x with _ => _ end] => destruct x
         end; by simplify_eq.
Qed.

Lemma legacy_post_Sent W J req txdb l txdb' :
  Legacy.post W J req txdb = (Legacy.Sent l, txdb') →
  ∃ params chainId safeAddress provider currentNonce,
    parseSafeParams W (params_chainId req) (params_safeAddress req) = Returns params
    ∧ truthy_params params = Some (chainId, safeAddress)
    ∧ getProvider W chainId = Some provider
    ∧ nonce (provider safeAddress) = Some currentNonce
    ∧ Legacy.acceptance J (default [] (txdb !! getSafeKey chainId safeAddress)) currentNonce
        (body req) = None
    ∧ l = default [] (txdb !! getSafeKey chainId safeAddress) ++ [body req]
    ∧ txdb' = <[getSafeKey chainId safeAddress :=
                  Legacy.cleanup currentNonce (body req)
                    (default [] (txdb !! getSafeKey chainId safeAddress))]> txdb.
Proof.
  unfold Legacy.post. intros H.
  destruct (parseSafeParams _ _ _) as [params|] eqn:Hr; [|done].
  destruct (truthy_params _) as [[chainId safeAddress]|] eqn:Hp; [|done].
  destruct (getProvider W chainId) as [provider|] eqn:Hprov; [|done].
  destruct (nonce _) as [currentNonce|] eqn:Hn; [|done].
  destruct (Legacy.acceptance _ _ _ _) eqn:Hacc; [done|].
  destruct (encodeTransactionData _ _); [|done].
  destruct (Js.concat _); [|done]. destruct (negb _); [done|].
  injection H as <- <-. exists params, chainId, safeAddress, provider, currentNonce.
  repeat split; done.
Qed.

Lemma legacy_kept_true currentNonce info t :
  Legacy.kept currentNonce info t = true
  ↔ currentNonce ≤ _nonce (txn t) ∧ txn t ≠ txn info.
Proof.
  unfold Legacy.kept. rewrite andb_true_iff, negb_true_iff, Z.leb_le.
  rewrite <-not_true_iff_false, isEqual_eq. done.
Qed.

(** X19. A POST to the older handler that is answered with an error leaves
    the store as it was. *)
Theorem legacy_post_error_keeps_store W J req txdb e :
  (Legacy.post W J req txdb).1 = Legacy.Failed e →
  (Legacy.post W J req txdb).2 = txdb.
Proof.
  destruct (Legacy.post W J req txdb) as [r txdb'] eqn:Hpost. simpl. intros ->.
  by eapply legacy_post_Failed.
Qed.

Lemma legacy_post_error_keeps_store_witness :
  (Legacy.post (world 5) LegacySample.json (request "0xaa" 4 [sig_a]) LegacySample.staged_5).1
  = Legacy.Failed Legacy.NonceTooLow
  ∧ (Legacy.post (world 5) LegacySample.json (request "0xaa" 4 [sig_a])
       LegacySample.staged_5).2 = LegacySample.staged_5.
Proof.
  assert ((Legacy.post (world 5) LegacySample.json (request "0xaa" 4 [sig_a])
             LegacySample.staged_5).1 = Legacy.Failed Legacy.NonceTooLow) as H.
  { evaluate. }
  split; [exact H|].
  exact (legacy_post_error_keeps_store (world 5) LegacySample.json
           (request "0xaa" 4 [sig_a]) LegacySample.staged_5 _ H).
Defined.

(** X20. The older handler answers a successful POST with the array as it
    was before the clean-up: what was staged, in the order staged, followed
    by the request.  What it stores, and what a GET returns next, is that
    array without the entries of a nonce below the current one and without
    the earlier entries of the transaction of the request; so the answer can
    show entries the store no longer has. *)
Theorem legacy_reply_is_before_cleanup W J req txdb l txdb' :
  Legacy.post W J req txdb = (Legacy.Sent l, txdb') →
  ∃ params chainId safeAddress provider currentNonce stored,
    parseSafeParams W (params_chainId req) (params_safeAddress req) = Returns params
    ∧ truthy_params params = Some (chainId, safeAddress)
    ∧ getProvider W chainId = Some provider
    ∧ nonce (provider safeAddress) = Some currentNonce
    ∧ l = default [] (txdb !! getSafeKey chainId safeAddress) ++ [body req]
    ∧ Legacy.get W (params_chainId req) (params_safeAddress req) txdb' = Legacy.Sent stored
    ∧ stored `sublist_of` l
    ∧ (∀ t, t ∈ stored ↔
            t ∈ l ∧ currentNonce ≤ _nonce (txn t) ∧ (txn t = txn (body req) → t = body req)).
Proof.
  intros (params & chainId & safeAddress & provider & currentNonce
          & Hr & Hp & Hprov & Hn & _ & -> & ->)%legacy_post_Sent.
  exists params, chainId, safeAddress, provider, currentNonce,
    (Legacy.cleanup currentNonce (body req)
       (default [] (txdb !! getSafeKey chainId safeAddress))).
  split; [done|]. split; [done|]. split; [done|]. split; [done|]. split; [done|].
  split; [|split].
  - unfold Legacy.get. rewrite Hr, Hp, lookup_insert_eq. done.
  - unfold Legacy.cleanup. apply sublist_app; [apply sublist_filter|].
    destruct (_ <=? _); [done|apply sublist_nil_l].
  - intros t. unfold Legacy.cleanup.
    rewrite !elem_of_app, list_elem_of_filter, legacy_kept_true, list_elem_of_singleton.
    destruct (currentNonce <=? _nonce (txn (body req))) eqn:Hle.
    + apply Z.leb_le in Hle. rewrite list_elem_of_singleton. split.
      * intros [[[? ?] ?]| ->]; [|by auto]. split; [by left|]. split; [done|]. done.
      * intros ([Hin| ->] & Hge & Hsame); [|by right].
        destruct (decide (txn t = txn (body req))) as [Heq|Hne]; [right; auto|by left].
    + apply Z.leb_gt in Hle. split.
      * intros [[[? ?] ?]|Hin]; [|by inversion Hin]. split; [by left|]. split; [done|]. done.
      * intros ([Hin| ->] & Hge & Hsame); [|lia]. left.
        split; [split; [done|]|done]. intros Heq. apply Hsame in Heq as ->. lia.
Qed.

Lemma legacy_reply_is_before_cleanup_witness :
  ∃ stored,
    Legacy.post (world 6) LegacySample.json (request "0xbb" 6 [sig_a]) LegacySample.staged_5
    = (Legacy.Sent [body (request "0xaa" 5 [sig_a]); body (request "0xbb" 6 [sig_a])],
       (Legacy.post (world 6) LegacySample.json (request "0xbb" 6 [sig_a])
          LegacySample.staged_5).2)
    ∧ Legacy.get (world 6) "1" safe_address
        (Legacy.post (world 6) LegacySample.json (request "0xbb" 6 [sig_a])
           LegacySample.staged_5).2 = Legacy.Sent stored
    ∧ stored `sublist_of` [body (request "0xaa" 5 [sig_a]); body (request "0xbb" 6 [sig_a])].
Proof.
  assert (Legacy.post (world 6) LegacySample.json (request "0xbb" 6 [sig_a])
            LegacySample.staged_5
          = (Legacy.Sent [body (request "0xaa" 5 [sig_a]); body (request "0xbb" 6 [sig_a])],
             (Legacy.post (world 6) LegacySample.json (request "0xbb" 6 [sig_a])
                LegacySample.staged_5).2)) as Hpost.
  { apply pair_of_fst. evaluate. }
  destruct (legacy_reply_is_before_cleanup (world 6) LegacySample.json
              (request "0xbb" 6 [sig_a]) LegacySample.staged_5 _ _ Hpost)
    as (params & chainId & safeAddress & provider & currentNonce & stored
        & _ & _ & _ & _ & _ & Hget & Hsub & _).
  exists stored. split; [exact Hpost|]. split; [exact Hget|exact Hsub].
Defined.

(** X21. The older handler does not merge.  After a successful POST the
    array it has stored for the safe, the one a GET returns next, holds the
    transaction of the request at most once: in the entry of the request
    itself, with the signatures of the request and no other, at the end of
    the array.  The entries that held that transaction before, whatever
    their signatures, are gone; and when the nonce of the request is below
    the current one, the array holds no entry of the transaction at all. *)
Theorem legacy_restaging_replaces W J req txdb l txdb' :
  Legacy.post W J req txdb = (Legacy.Sent l, txdb') →
  ∃ params chainId safeAddress provider currentNonce stored,
    parseSafeParams W (params_chainId req) (params_safeAddress req) = Returns params
    ∧ truthy_params params = Some (chainId, safeAddress)
    ∧ getProvider W chainId = Some provider
    ∧ nonce (provider safeAddress) = Some currentNonce
    ∧ Legacy.get W (params_chainId req) (params_safeAddress req) txdb' = Legacy.Sent stored
    ∧ filter (λ t, txn t = txn (body req)) stored
      = (if currentNonce <=? _nonce (txn (body req)) then [body req] else [])
    ∧ (currentNonce ≤ _nonce (txn (body req)) → last stored = Some (body req)).
Proof.
  intros (params & chainId & safeAddress & provider & currentNonce
          & Hr & Hp & Hprov & Hn & _ & -> & ->)%legacy_post_Sent.
  exists params, chainId, safeAddress, provider, currentNonce,
    (Legacy.cleanup currentNonce (body req)
       (default [] (txdb !! getSafeKey chainId safeAddress))).
  split; [done|]. split; [done|]. split; [done|]. split; [done|].
  split; [|split].
  - unfold Legacy.get. rewrite Hr, Hp, lookup_insert_eq. done.
  - unfold Legacy.cleanup. rewrite filter_app.
    assert (filter (λ t, txn t = txn (body req))
              (filter (λ t, Legacy.kept currentNonce (body req) t = true)
                 (default [] (txdb !! getSafeKey chainId safeAddress))) = []) as ->.
    { generalize (default [] (txdb !! getSafeKey chainId safeAddress)). intros old.
      induction old as [|t old IH]; [done|].
      rewrite filter_cons. case_decide as Hk; [|done].
      apply legacy_kept_true in Hk as [_ Hne]. by rewrite filter_cons, decide_False. }
    destruct (_ <=? _); [|done]. by rewrite filter_cons, decide_True.
  - intros Hge%Z.leb_le. unfold Legacy.cleanup. rewrite Hge. apply last_snoc.
Qed.

Lemma legacy_restaging_replaces_witness :
  ∃ stored,
    Legacy.post (world 5) LegacySample.json (request "0xaa" 5 [sig_b]) LegacySample.staged_5
    = (Legacy.Sent [body (request "0xaa" 5 [sig_a]); body (request "0xaa" 5 [sig_b])],
       (Legacy.post (world 5) LegacySample.json (request "0xaa" 5 [sig_b])
          LegacySample.staged_5).2)
    ∧ Legacy.get (world 5) "1" safe_address
        (Legacy.post (world 5) LegacySample.json (request "0xaa" 5 [sig_b])
           LegacySample.staged_5).2 = Legacy.Sent stored
    ∧ filter (λ t, txn t = txn (body (request "0xaa" 5 [sig_b]))) stored
      = [body (request "0xaa" 5 [sig_b])].
Proof.
  assert (Legacy.post (world 5) LegacySample.json (request "0xaa" 5 [sig_b])
            LegacySample.staged_5
          = (Legacy.Sent [body (request "0xaa" 5 [sig_a]); body (request "0xaa" 5 [sig_b])],
             (Legacy.post (world 5) LegacySample.json (request "0xaa" 5 [sig_b])
                LegacySample.staged_5).2)) as Hpost.
  { apply pair_of_fst. evaluate. }
  destruct (legacy_restaging_replaces (world 5) LegacySample.json
              (request "0xaa" 5 [sig_b]) LegacySample.staged_5 _ _ Hpost)
    as (params & chainId & safeAddress & provider & currentNonce & stored
        & _ & _ & Hprov & Hn & Hget & Hf & _).
  assert (currentNonce = 5) as ->.
  { clear -Hprov Hn. cbn [getProvider world] in Hprov.
    destruct (chainId =? 1); [|discriminate Hprov].
    injection Hprov as <-. cbn [nonce sample_safe] in Hn. by injection Hn. }
  exists stored. split; [exact Hpost|]. split; [exact Hget|exact Hf].
Defined.
